(** * Playlist Transfer extension: the background service worker

    A shallow embedding of [background.js] (the transfer engine of the
    extension) and of the start guard of [popup.js], with the properties
    of the engine proved or refuted on it.

    Conventions of the embedding.
    - A JavaScript number is an IEEE 754 double: [float] (primitive floats),
      so that [30 + (i / tracks.length) * 30] is computed as the engine
      computes it.
    - A thrown [Error] is represented by its [message], the only part of it
      the engine reads.
    - [async] functions are programs of a resumption monad: a program runs
      on the shared world up to its next real suspension (storage access,
      network call, timer), where the event loop may run message handlers
      before the program is resumed.
    - A JavaScript object used as a map is a [gmap] of its entries; where
      the code indexes one with a name that comes from a message or from
      the storage ([authTokens[platform]], [names[platform]]), the
      members inherited from [Object.prototype] are found as well, as in
      [authTokens_get].
    - [console.log] / [console.error] output is not modelled.

    The development covers the transfer itself: the handlers of
    [startTransfer], [getTransferStatus] and [cancelTransfer],
    [performTransfer] and the functions it calls, the history, and
    [retryOperation]; then the status of the authentication, the listing
    of playlists up to the network, the rate limiter, and what the popup
    and the pages do with the answers of the service worker.  The OAuth
    flow and the settings are left out. *)

From Stdlib Require Import PrimFloat Uint63.
From stdpp Require Import gmap strings list.

Set Default Proof Using "Type".

(** ** Data model *)

(** A track as the content scripts extract it. *)
Record Track := mkTrack {
  track_name : string;
  track_artists : list string;
  track_album : string;
  track_duration : string;
  track_position : nat;
  track_platform : string
}.

(** A playlist as the content scripts extract it and as the platform
    functions return it. *)
Record Playlist := mkPlaylist {
  pl_id : string;
  pl_name : string;
  pl_description : string;
  pl_trackCount : nat;
  pl_platform : string;
  pl_url : string;
  pl_tracks : list Track
}.

(** [options] of a transfer request, as the popup builds them. *)
Record TransferOptions := mkOptions {
  conflictResolution : string;
  batchSize : nat
}.

(** [transferData], the payload of the [startTransfer] message. *)
Record TransferData := mkTransferData {
  sourcePlaylist : Playlist;
  sourcePlatform : string;
  targetPlatform : string;
  options : TransferOptions
}.

(** The argument of [createPlaylist]. *)
Record PlaylistData := mkPlaylistData {
  pd_name : string;
  pd_description : string
}.

(** An entry of [authTokens] in [chrome.storage.local]. *)
Record AuthToken := mkAuthToken {
  access_token : string;
  expires : option Z
}.

(** The names of the members that every object inherits from
    [Object.prototype].  [o[name]] finds them when [o] has no entry of
    that name. *)
Definition Object_prototype_names : list string :=
  ["constructor"; "__defineGetter__"; "__defineSetter__"; "hasOwnProperty";
   "__lookupGetter__"; "__lookupSetter__"; "isPrototypeOf";
   "propertyIsEnumerable"; "toString"; "valueOf"; "__proto__";
   "toLocaleString"].

(** What [authTokens[platform]] evaluates to when it is not [undefined]:
    an entry of the object or, for a name of which it has no entry, the
    member of that name inherited from [Object.prototype]. *)
Inductive TokenValue :=
| StoredToken (token : AuthToken)
| InheritedMember (name : string).

(** An element of the array [searchTracksOnPlatform] returns.  A field of
    the JavaScript object that the literal does not mention is [None]; the
    field [match] that holds [null] is [Some None]. *)
Record MatchResult := mkMatchResult {
  original : Track;
  found : bool;
  match_ : option (option Track);
  error : option string
}.

(** The record [performTransfer] writes to the history. *)
Record TransferRecord := mkTransferRecord {
  rec_sourcePlaylist : Playlist;
  rec_sourcePlatform : string;
  rec_targetPlatform : string;
  rec_targetPlaylist : Playlist;
  transferredTracks : nat;
  totalTracks : nat;
  timestamp : Z
}.

(** The global [transferState].  [message] is absent until the first
    [updateProgress]. *)
Record TransferState := mkTransferState {
  isTransferring : bool;
  currentTransfer : option TransferData;
  progress : float;
  errors : list string;
  message : option string
}.

Definition initialTransferState : TransferState :=
  mkTransferState false None 0%float [] None.

(** [chrome.storage.local], restricted to the keys the engine uses. *)
Record Storage := mkStorage {
  authTokens : option (gmap string AuthToken);
  transferHistory : option (list TransferRecord)
}.

(** What [sendResponse] is called with. *)
Inductive Response :=
| RespSuccess (msg : string)
| RespError (msg : string)
| RespStatus (st : TransferState).

(** Observable actions of the engine, oldest first: responses, progress
    notifications, calls of the platform functions, invocations of the
    operation given to [retryOperation], and timers. *)
Inductive Event :=
| EvResponse (r : Response)
| EvProgress (p : float) (msg : string)
| EvGetTracks (platform : string) (playlistId : string)
| EvSearch (platform : string) (t : Track)
| EvCreate (platform : string) (d : PlaylistData)
| EvAddTracks (platform : string) (playlistId : string)
    (tracks : list MatchResult)
| EvOperation
| EvSetTimeout (ms : Z).

(** The result of a call that may throw. *)
Inductive Outcome (A : Type) :=
| Ok (a : A)
| Raise (e : string).
Arguments Ok {A} a.
Arguments Raise {A} e.

(** [Number(n)] for an array index or length. *)
Definition float_of_nat (n : nat) : float :=
  PrimFloat.of_uint63 (Uint63.of_Z (Z.of_nat n)).


(** ** The platform functions

    [background.js] calls these functions and leaves their definitions out
    ("Platform-specific implementations would continue here...").  They
    are parameters of the engine: each acts on the state [E] of the outside
    world (the music services and the clock) and returns or throws. *)
Record ExternalApis (E : Type) := mkExternalApis {
  date_now : E -> Z;
  getSpotifyPlaylistTracks :
    option TokenValue -> string -> E -> Outcome (list Track) * E;
  getApplePlaylistTracks :
    option TokenValue -> string -> E -> Outcome (list Track) * E;
  getYouTubePlaylistTracks :
    option TokenValue -> string -> E -> Outcome (list Track) * E;
  searchTrack :
    string -> option TokenValue -> Track -> E -> Outcome (option Track) * E;
  createSpotifyPlaylist :
    option TokenValue -> PlaylistData -> E -> Outcome Playlist * E;
  createApplePlaylist :
    option TokenValue -> PlaylistData -> E -> Outcome Playlist * E;
  createYouTubePlaylist :
    option TokenValue -> PlaylistData -> E -> Outcome Playlist * E;
  addTracksToSpotifyPlaylist :
    option TokenValue -> string -> list MatchResult -> E -> Outcome unit * E;
  addTracksToApplePlaylist :
    option TokenValue -> string -> list MatchResult -> E -> Outcome unit * E;
  addTracksToYouTubePlaylist :
    option TokenValue -> string -> list MatchResult -> E -> Outcome unit * E
}.
Arguments date_now {E} _ _.
Arguments getSpotifyPlaylistTracks {E} _ _ _ _.
Arguments getApplePlaylistTracks {E} _ _ _ _.
Arguments getYouTubePlaylistTracks {E} _ _ _ _.
Arguments searchTrack {E} _ _ _ _ _.
Arguments createSpotifyPlaylist {E} _ _ _ _.
Arguments createApplePlaylist {E} _ _ _ _.
Arguments createYouTubePlaylist {E} _ _ _ _.
Arguments addTracksToSpotifyPlaylist {E} _ _ _ _ _.
Arguments addTracksToApplePlaylist {E} _ _ _ _ _.
Arguments addTracksToYouTubePlaylist {E} _ _ _ _ _.

(** ** The world and the monad of [async] functions *)

(** Everything the service worker can read or write. *)
Record World (E : Type) := mkWorld {
  ts : TransferState;
  storage : Storage;
  ext : E;
  log : list Event
}.
Arguments mkWorld {E} _ _ _ _.
Arguments ts {E} _.
Arguments storage {E} _.
Arguments ext {E} _.
Arguments log {E} _.

(** A program that has run as far as it can: it has returned or thrown, or
    it is suspended on an asynchronous operation and continues from the
    world it is resumed in. *)
Inductive Susp (E A : Type) :=
| Done (w : World E) (r : Outcome A)
| Pause (w : World E) (k : World E -> Susp E A).
Arguments Done {E A} w r.
Arguments Pause {E A} w k.

Definition Prog (E A : Type) : Type := World E -> Susp E A.

Section Monad.
Context {E : Type}.

Definition ret {A} (a : A) : Prog E A := fun w => Done w (Ok a).

Definition throw {A} (e : string) : Prog E A := fun w => Done w (Raise e).

Fixpoint bindS {A B} (s : Susp E A) (f : A -> Prog E B) : Susp E B :=
  match s with
  | Done w (Ok a) => f a w
  | Done w (Raise e) => Done w (Raise e)
  | Pause w k => Pause w (fun w' => bindS (k w') f)
  end.

Definition bind {A B} (m : Prog E A) (f : A -> Prog E B) : Prog E B :=
  fun w => bindS (m w) f.

(** [try { m } catch (error) { h error }] *)
Fixpoint catchS {A} (s : Susp E A) (h : string -> Prog E A) : Susp E A :=
  match s with
  | Done w (Ok a) => Done w (Ok a)
  | Done w (Raise e) => h e w
  | Pause w k => Pause w (fun w' => catchS (k w') h)
  end.

Definition try_catch {A} (m : Prog E A) (h : string -> Prog E A)
  : Prog E A :=
  fun w => catchS (m w) h.

(** [try { m } finally { fin }]: [fin] runs on every exit of [m]; the
    result is that of [m] unless [fin] itself throws. *)
Fixpoint finallyS {A} (s : Susp E A) (fin : Prog E unit) : Susp E A :=
  match s with
  | Done w r => bindS (fin w) (fun _ w' => Done w' r)
  | Pause w k => Pause w (fun w' => finallyS (k w') fin)
  end.

Definition try_finally {A} (m : Prog E A) (fin : Prog E unit)
  : Prog E A :=
  fun w => finallyS (m w) fin.

(** Synchronous access to the world. *)
Definition gets {A} (f : World E -> A) : Prog E A :=
  fun w => Done w (Ok (f w)).

Definition modify (f : World E -> World E) : Prog E unit :=
  fun w => Done (f w) (Ok tt).

(** [await] of an operation that really suspends: control returns to the
    event loop, and the operation has taken effect when the program is
    resumed. *)
Definition await {A} (act : World E -> World E * Outcome A) : Prog E A :=
  fun w => Pause w (fun w' => let '(w'', r) := act w' in Done w'' r).

(** Running a program to its end with nothing else scheduled in
    between. *)
Fixpoint runS {A} (s : Susp E A) : World E * Outcome A :=
  match s with
  | Done w r => (w, r)
  | Pause w k => runS (k w)
  end.

Definition exec {A} (m : Prog E A) (w : World E) : World E * Outcome A :=
  runS (m w).
End Monad.

Notation "x <- m ;; f" := (bind m (fun x => f))
  (at level 100, m at next level, right associativity).
Notation "m ;; f" := (bind m (fun _ => f))
  (at level 100, right associativity).

(** ** The engine: [background.js] *)

Section Engine.
Context {E : Type} (api : ExternalApis E).

Definition set_ts (f : TransferState -> TransferState) (w : World E)
  : World E :=
  mkWorld (f (ts w)) (storage w) (ext w) (log w).

Definition set_storage (f : Storage -> Storage) (w : World E) : World E :=
  mkWorld (ts w) (f (storage w)) (ext w) (log w).

Definition add_log (ev : Event) (w : World E) : World E :=
  mkWorld (ts w) (storage w) (ext w) (log w ++ [ev]).

(** [await chrome.storage.local.get([...])] *)
Definition storage_get : Prog E Storage :=
  await (fun w => (w, Ok (storage w))).

(** [await chrome.storage.local.set({ transferHistory: history })] *)
Definition storage_set_transferHistory (history : list TransferRecord)
  : Prog E unit :=
  await (fun w =>
    (set_storage (fun s => mkStorage (authTokens s) (Some history)) w,
     Ok tt)).

(** A call of a platform function, recorded in the log when it is made;
    the function acts on the outside world while the caller is
    suspended. *)
Definition call {A} (ev : Event) (f : E -> Outcome A * E) : Prog E A :=
  modify (add_log ev);;
  await (fun w =>
    let '(r, e') := f (ext w) in
    (mkWorld (ts w) (storage w) e' (log w), r)).

(** [Date.now()] *)
Definition Date_now : Prog E Z := gets (fun w => date_now api (ext w)).

(** [sendResponse(r)] *)
Definition sendResponse (r : Response) : Prog E unit :=
  modify (add_log (EvResponse r)).

(** [updateProgress(progress, message)]: the state is updated and the
    popup is notified. *)
Definition updateProgress (p : float) (msg : string) : Prog E unit :=
  modify (set_ts (fun st =>
    mkTransferState (isTransferring st) (currentTransfer st) p (errors st)
      (Some msg)));;
  modify (add_log (EvProgress p msg)).

(** Truthiness of [token.expires]. *)
Definition expires_truthy (x : option Z) : bool :=
  match x with
  | Some z => negb (z =? 0)%Z
  | None => false
  end.

(** [token.expires && Date.now() > token.expires] *)
Definition token_expired (token : AuthToken) (now : Z) : bool :=
  match expires token with
  | Some z => negb (z =? 0)%Z && (z <? now)%Z
  | None => false
  end.

(** [authTokens[platform]] *)
Definition authTokens_get (authTokens : gmap string AuthToken)
    (platform : string) : option TokenValue :=
  match authTokens !! platform with
  | Some token => Some (StoredToken token)
  | None =>
      if bool_decide (platform ∈ Object_prototype_names)
      then Some (InheritedMember platform)
      else None
  end.

(** [token.expires && Date.now() > token.expires] for what
    [authTokens[platform]] gave; a member of [Object.prototype] has no
    [expires]. *)
Definition value_expired (token : TokenValue) (now : Z) : bool :=
  match token with
  | StoredToken token => token_expired token now
  | InheritedMember _ => false
  end.

Definition getAuthToken (platform : string) : Prog E (option TokenValue) :=
  result <- storage_get;;
  let tokens : gmap string AuthToken := default ∅ (authTokens result) in
  match authTokens_get tokens platform with
  | None => ret None
  | Some token =>
      now <- Date_now;;
      if value_expired token now then ret None else ret (Some token)
  end.

Definition getPlaylistTracks (platform playlistId : string)
  : Prog E (list Track) :=
  token <- getAuthToken platform;;
  if decide (platform = "spotify") then
    call (EvGetTracks platform playlistId)
      (getSpotifyPlaylistTracks api token playlistId)
  else if decide (platform = "apple") then
    call (EvGetTracks platform playlistId)
      (getApplePlaylistTracks api token playlistId)
  else if decide (platform = "youtube") then
    call (EvGetTracks platform playlistId)
      (getYouTubePlaylistTracks api token playlistId)
  else
    throw ("Platform " +:+ platform +:+ " not supported for track fetching").

(** [!!searchResult] *)
Definition truthy {A} (x : option A) : bool :=
  match x with
  | Some _ => true
  | None => false
  end.

(** The body of the [for] loop of [searchTracksOnPlatform], from index
    [i], with [rest] the tracks from that index on and [n] the value of
    [tracks.length]. *)
Fixpoint search_loop (platform : string) (token : option TokenValue)
    (n i : nat) (rest : list Track) (results : list MatchResult)
  : Prog E (list MatchResult) :=
  match rest with
  | [] => ret results
  | track :: rest' =>
      results' <-
        try_catch
          (searchResult <-
             call (EvSearch platform track)
               (searchTrack api platform token track);;
           ret (results ++
                [mkMatchResult track (truthy searchResult)
                   (Some searchResult) None]))
          (fun error =>
           ret (results ++ [mkMatchResult track false None (Some error)]));;
      updateProgress
        (30 + (float_of_nat i / float_of_nat n) * 30)%float
        ("Searching: " +:+ track_name track);;
      search_loop platform token n (S i) rest' results'
  end.

Definition searchTracksOnPlatform (platform : string) (tracks : list Track)
  : Prog E (list MatchResult) :=
  token <- getAuthToken platform;;
  search_loop platform token (length tracks) 0 tracks [].

Definition createPlaylist (platform : string) (playlistData : PlaylistData)
  : Prog E Playlist :=
  token <- getAuthToken platform;;
  if decide (platform = "spotify") then
    call (EvCreate platform playlistData)
      (createSpotifyPlaylist api token playlistData)
  else if decide (platform = "apple") then
    call (EvCreate platform playlistData)
      (createApplePlaylist api token playlistData)
  else if decide (platform = "youtube") then
    call (EvCreate platform playlistData)
      (createYouTubePlaylist api token playlistData)
  else
    throw ("Platform " +:+ platform +:+ " not supported for playlist creation").

(** [t.found && t.match] *)
Definition valid_match (t : MatchResult) : bool :=
  found t &&
  match match_ t with
  | Some (Some _) => true
  | _ => false
  end.

Definition addTracksToPlaylist (platform playlistId : string)
    (tracks : list MatchResult) : Prog E unit :=
  token <- getAuthToken platform;;
  let validTracks := filter (fun t => valid_match t = true) tracks in
  if decide (platform = "spotify") then
    call (EvAddTracks platform playlistId validTracks)
      (addTracksToSpotifyPlaylist api token playlistId validTracks)
  else if decide (platform = "apple") then
    call (EvAddTracks platform playlistId validTracks)
      (addTracksToApplePlaylist api token playlistId validTracks)
  else if decide (platform = "youtube") then
    call (EvAddTracks platform playlistId validTracks)
      (addTracksToYouTubePlaylist api token playlistId validTracks)
  else
    throw ("Platform " +:+ platform +:+ " not supported for adding tracks").

(** [history.unshift(transferRecord); if (history.length > 50)
    history.splice(50)] *)
Definition push_history (transferRecord : TransferRecord)
    (history : list TransferRecord) : list TransferRecord :=
  let history := transferRecord :: history in
  if 50 <? length history then take 50 history else history.

Definition saveTransferHistory (transferRecord : TransferRecord)
  : Prog E unit :=
  result <- storage_get;;
  let history := default [] (transferHistory result) in
  storage_set_transferHistory (push_history transferRecord history).

(** The [try] block of [performTransfer]. *)
Definition performTransfer_try (transferData : TransferData)
  : Prog E unit :=
  let sourcePlaylist := sourcePlaylist transferData in
  let sourcePlatform := sourcePlatform transferData in
  let targetPlatform := targetPlatform transferData in
  updateProgress 10 "Fetching source playlist tracks...";;
  sourceTracks <- getPlaylistTracks sourcePlatform (pl_id sourcePlaylist);;
  updateProgress 30 "Searching for tracks on target platform...";;
  matchedTracks <- searchTracksOnPlatform targetPlatform sourceTracks;;
  updateProgress 60 "Creating target playlist...";;
  targetPlaylist <-
    createPlaylist targetPlatform
      (mkPlaylistData (pl_name sourcePlaylist)
         (pl_description sourcePlaylist));;
  updateProgress 80 "Adding tracks to target playlist...";;
  addTracksToPlaylist targetPlatform (pl_id targetPlaylist) matchedTracks;;
  now <- Date_now;;
  saveTransferHistory
    (mkTransferRecord sourcePlaylist sourcePlatform targetPlatform
       targetPlaylist
       (length (filter (fun t => found t = true) matchedTracks))
       (length sourceTracks)
       now);;
  updateProgress 100 "Transfer completed successfully!".

(** The [catch] block of [performTransfer]. *)
Definition performTransfer_catch (error : string) : Prog E unit :=
  modify (set_ts (fun st =>
    mkTransferState (isTransferring st) (currentTransfer st) (progress st)
      (errors st ++ [error]) (message st)));;
  p <- gets (fun w => progress (ts w));;
  updateProgress p ("Transfer failed: " +:+ error).

(** The [finally] block of [performTransfer]. *)
Definition performTransfer_finally : Prog E unit :=
  modify (set_ts (fun st =>
    mkTransferState false (currentTransfer st) (progress st) (errors st)
      (message st))).

Definition performTransfer (transferData : TransferData) : Prog E unit :=
  try_finally
    (try_catch (performTransfer_try transferData) performTransfer_catch)
    performTransfer_finally.

(** The promise a call of an [async] function returns: the function has
    run up to its first suspension; the promise is settled, or pending
    with what is left to run. *)
Inductive Promise :=
| Settled (r : Outcome unit)
| Pending (k : World E -> Susp E unit).

(** A call of an [async] function that is not awaited. *)
Definition call_async (m : Prog E unit) : Prog E Promise :=
  fun w =>
    match m w with
    | Done w' r => Done w' (Ok (Settled r))
    | Pause w' k => Done w' (Ok (Pending k))
    end.

(** The handlers return the promise of the transfer they started, if
    any. *)
Definition handleStartTransfer (transferData : TransferData)
  : Prog E (option Promise) :=
  try_catch
    (busy <- gets (fun w => isTransferring (ts w));;
     (if busy then throw "Transfer already in progress" else ret tt);;
     modify (set_ts (fun st =>
       mkTransferState true (Some transferData) 0 [] (message st)));;
     sendResponse (RespSuccess "Transfer started");;
     p <- call_async (performTransfer transferData);;
     ret (Some p))
    (fun error =>
     modify (set_ts (fun st =>
       mkTransferState false (currentTransfer st) (progress st) (errors st)
         (message st)));;
     sendResponse (RespError error);;
     ret None).

Definition handleCancelTransfer : Prog E (option Promise) :=
  modify (set_ts (fun st =>
    mkTransferState false None 0 (errors st) (message st)));;
  sendResponse (RespSuccess "Transfer cancelled");;
  ret None.

(** The messages of the popup that concern a transfer. *)
Inductive Message :=
| MsgStartTransfer (transferData : TransferData)
| MsgGetTransferStatus
| MsgCancelTransfer.

(** The listener of [chrome.runtime.onMessage]. *)
Definition onMessage (m : Message) : Prog E (option Promise) :=
  match m with
  | MsgStartTransfer transferData => handleStartTransfer transferData
  | MsgGetTransferStatus =>
      st <- gets (fun w => ts w);;
      sendResponse (RespStatus st);;
      ret None
  | MsgCancelTransfer => handleCancelTransfer
  end.

(** [retryOperation(operation, maxRetries = 3)].  The operation is a
    function given by the caller: like the platform functions it acts on
    the outside world, and each invocation is recorded in the log.  The
    loop variable takes the values [1 .. maxRetries] in turn; the loop
    yields [Some a] when it returns [a], and [None] to go on. *)
Fixpoint retry_loop {A} (operation : E -> Outcome A * E) (maxRetries : nat)
    (attempts : list nat) : Prog E (option A) :=
  match attempts with
  | [] => ret None
  | attempt :: rest =>
      returned <-
        try_catch
          (a <- call EvOperation operation;;
           ret (Some a))
          (fun error =>
           if decide (attempt = maxRetries) then throw error
           else
             (modify (add_log (EvSetTimeout (1000 * Z.of_nat attempt)));;
              await (fun w => (w, Ok tt));;
              ret None));;
      match returned with
      | Some a => ret (Some a)
      | None => retry_loop operation maxRetries rest
      end
  end.

(** The result is [None] when the function ends without [return]
    ([undefined]). *)
Definition retryOperation {A} (operation : E -> Outcome A * E)
    (maxRetries : option nat) : Prog E (option A) :=
  let maxRetries := default 3 maxRetries in
  retry_loop operation maxRetries (seq 1 maxRetries).

(** ** The event loop *)

(** The service worker between two turns of the event loop: the world and
    the suspended transfers. *)
Record System := mkSystem {
  world : World E;
  tasks : list (World E -> Susp E unit)
}.

(** One turn of the event loop: a message is delivered to the listener,
    or a suspended transfer is resumed. *)
Inductive Turn :=
| Deliver (m : Message)
| Resume (i : nat).

Definition deliver (m : Message) (sys : System) : System :=
  match onMessage m (world sys) with
  | Done w (Ok (Some (Pending k))) => mkSystem w (tasks sys ++ [k])
  | Done w _ => mkSystem w (tasks sys)
  | Pause w k =>
      mkSystem w (tasks sys ++ [fun w' => bindS (k w') (fun _ => ret tt)])
  end.

Definition resume (i : nat) (sys : System) : System :=
  match tasks sys !! i with
  | None => sys
  | Some k =>
      match k (world sys) with
      | Done w _ => mkSystem w (delete i (tasks sys))
      | Pause w k' => mkSystem w (<[i := k']> (tasks sys))
      end
  end.

Definition turn (sys : System) (t : Turn) : System :=
  match t with
  | Deliver m => deliver m sys
  | Resume i => resume i sys
  end.

Definition run_turns (sys : System) (schedule : list Turn) : System :=
  foldl turn sys schedule.

End Engine.

(** ** The popup: the guard of [popup.js] before [startTransfer] is sent *)

Module Popup.

(** The reply of the content script to [getPlaylistData]. *)
Record PlaylistResponse := mkPlaylistResponse {
  success : bool;
  playlist : option Playlist
}.

(** The settings of the popup; a field is [None] when it is not set. *)
Record Settings := mkSettings {
  s_conflictResolution : option string;
  s_batchSize : option nat
}.

(** What the click handler ends up doing. *)
Inductive Action :=
| Notify (msg : string)
| SendStartTransfer (transferData : TransferData).

(** [x || d] on strings and numbers. *)
Definition string_or (x : option string) (d : string) : string :=
  match x with
  | Some s => if decide (s = "") then d else s
  | None => d
  end.

Definition nat_or (x : option nat) (d : nat) : nat :=
  match x with
  | Some 0 => d
  | Some n => n
  | None => d
  end.

(** [handleStartTransfer] of the popup, as a function of the values of the
    two selectors, the active tab, the reply of the content script (or the
    error of the call) and the settings. *)
Definition handleStartTransfer (source target : string)
    (currentTab : option nat)
    (playlistResponse : Outcome (option PlaylistResponse))
    (settings : Settings) : Action :=
  if bool_decide (source = "") || bool_decide (target = "")
     || bool_decide (source = target)
  then Notify "Please select different source and target platforms"
  else
    match currentTab with
    | None => Notify "Unable to access current tab"
    | Some _ =>
        match playlistResponse with
        | Raise e => Notify ("Failed to start transfer: " +:+ e)
        | Ok (Some (mkPlaylistResponse true (Some playlist))) =>
            SendStartTransfer
              (mkTransferData playlist source target
                 (mkOptions
                    (string_or (s_conflictResolution settings) "skip")
                    (nat_or (s_batchSize settings) 50)))
        | Ok _ =>
            Notify
              "No playlist detected on current page. Please navigate to a playlist page."
        end
    end.

End Popup.

(** ** Definitions of the statements *)

(** *** The log *)

(** Projections of the log. *)
Definition responses (l : list Event) : list Response :=
  omap (fun ev => match ev with EvResponse r => Some r | _ => None end) l.

(** The calls of the platform functions that add tracks: platform,
    playlist and tracks submitted, oldest first. *)
Definition add_calls (l : list Event)
  : list (string * string * list MatchResult) :=
  omap (fun ev =>
          match ev with
          | EvAddTracks p id tracks => Some (p, id, tracks)
          | _ => None
          end) l.

(** The tracks searched for, oldest first. *)
Definition search_calls (l : list Event) : list Track :=
  omap (fun ev => match ev with EvSearch _ t => Some t | _ => None end) l.

(** The number of invocations of the operation given to
    [retryOperation]. *)
Definition operation_calls (l : list Event) : nat :=
  length
    (omap (fun ev => match ev with EvOperation => Some tt | _ => None end) l).

(** What a transfer does to the outside: the calls of the platform
    functions, as opposed to the answers and notifications to the
    popup. *)
Definition is_call (ev : Event) : bool :=
  match ev with
  | EvResponse _ | EvProgress _ _ => false
  | _ => true
  end.

Definition platform_calls (l : list Event) : list Event :=
  filter (fun ev => is_call ev = true) l.

(** *** Tokens, searches and results *)

(** The platforms the [switch] statements of the engine know. *)
Definition supported (platform : string) : bool :=
  bool_decide (platform = "spotify") || bool_decide (platform = "apple")
  || bool_decide (platform = "youtube").

(** The token [getAuthToken] returns in a world. *)
Definition current_token {E} (api : ExternalApis E) (platform : string)
    (w : World E) : option TokenValue :=
  match authTokens_get (default ∅ (authTokens (storage w))) platform with
  | None => None
  | Some token =>
      if value_expired token (date_now api (ext w)) then None
      else Some token
  end.

(** The outcomes of the successive calls of [searchTrack] for a list of
    tracks, from a state of the outside world, and the state they leave. *)
Fixpoint search_outcomes {E} (api : ExternalApis E) (platform : string)
    (token : option TokenValue) (tracks : list Track) (e : E)
  : list (Outcome (option Track)) * E :=
  match tracks with
  | [] => ([], e)
  | track :: rest =>
      let '(o, e') := searchTrack api platform token track e in
      let '(os, e'') := search_outcomes api platform token rest e' in
      (o :: os, e'')
  end.

(** A [MatchResult] records the outcome of the search of its track: the
    three cases of the claim on the shape of a result. *)
Inductive records (track : Track) : Outcome (option Track) -> MatchResult
  -> Prop :=
| records_match (m : Track) :
    records track (Ok (Some m))
      (mkMatchResult track true (Some (Some m)) None)
| records_no_match :
    records track (Ok None) (mkMatchResult track false (Some None) None)
| records_failure (e : string) :
    records track (Raise e) (mkMatchResult track false None (Some e)).

(** A search that returned a track. *)
Definition found_outcome (o : Outcome (option Track)) : bool :=
  match o with
  | Ok (Some _) => true
  | _ => false
  end.

(** *** The states a transfer goes through *)

(** The state after [updateProgress]. *)
Definition progress_ts (p : float) (msg : string) (st : TransferState)
  : TransferState :=
  mkTransferState (isTransferring st) (currentTransfer st) p (errors st)
    (Some msg).

(** The state after the [catch] block of [performTransfer]. *)
Definition failed_ts (error : string) (st : TransferState) : TransferState :=
  mkTransferState (isTransferring st) (currentTransfer st) (progress st)
    (errors st ++ [error]) (Some ("Transfer failed: " +:+ error)).

(** The state after the [finally] block of [performTransfer]. *)
Definition finished_ts (st : TransferState) : TransferState :=
  mkTransferState false (currentTransfer st) (progress st) (errors st)
    (message st).

(** The world [handleStartTransfer] leaves when no transfer is running:
    the state is reset for the new job, the popup is answered, and
    [performTransfer] has run up to its first suspension. *)
Definition started_world {E} (transferData : TransferData) (w : World E)
  : World E :=
  add_log (EvProgress 10 "Fetching source playlist tracks...")
    (set_ts (fun st =>
       mkTransferState (isTransferring st) (currentTransfer st) 10
         (errors st) (Some "Fetching source playlist tracks..."))
       (add_log (EvResponse (RespSuccess "Transfer started"))
          (set_ts (fun st =>
             mkTransferState true (Some transferData) 0 [] (message st))
             w))).

(** What a phase of a transfer other than the insertion and the write to
    the history leaves untouched: the storage and the calls that add
    tracks. *)
Definition frame {E} (w w' : World E) : Prop :=
  storage w' = storage w /\ add_calls (log w') = add_calls (log w).

(** The history [List()] retrieves. *)
Definition history_of {E} (w : World E) : list TransferRecord :=
  default [] (transferHistory (storage w)).

(** A sequence of [Append] calls. *)
Fixpoint save_all {E} (records : list TransferRecord) : Prog E unit :=
  match records with
  | [] => ret tt
  | r :: rest => saveTransferHistory r;; save_all rest
  end.

(** *** Invocations of a retried operation *)

(** The state of the outside world after [k] invocations of an
    operation. *)
Fixpoint after_invocations {E A} (operation : E -> Outcome A * E) (k : nat)
    (e : E) : E :=
  match k with
  | 0 => e
  | S k' => after_invocations operation k' (snd (operation e))
  end.

(** The outcome of invocation number [k + 1]. *)
Definition invocation {E A} (operation : E -> Outcome A * E) (k : nat)
    (e : E) : Outcome A :=
  fst (operation (after_invocations operation k e)).

(** The world after one invocation of the operation given to
    [retryOperation]. *)
Definition invoked_world {E A} (operation : E -> Outcome A * E)
    (w : World E) : World E :=
  mkWorld (ts w) (storage w) (operation (ext w)).2 (log w ++ [EvOperation]).

(** *** Transfers that end and worlds that agree *)

(** A suspended program that, however the world is changed while it is
    suspended, is not transferring any more when it ends. *)
Inductive ends_idle {E A} : Susp E A -> Prop :=
| ends_idle_done (w : World E) (r : Outcome A) :
    isTransferring (ts w) = false -> ends_idle (Done w r)
| ends_idle_pause (w : World E) (k : World E -> Susp E A) :
    (forall w', ends_idle (k w')) -> ends_idle (Pause w k).

(** Every suspended transfer of the system ends not transferring. *)
Definition tasks_end_idle {E} (sys : System (E:=E)) : Prop :=
  Forall (fun k => forall w, ends_idle (k w)) (tasks sys).

(** Two worlds that differ at most in [transferState] and in what was
    said to the popup. *)
Definition agree {E} (w1 w2 : World E) : Prop :=
  storage w1 = storage w2
  /\ ext w1 = ext w2
  /\ platform_calls (log w1) = platform_calls (log w2).

(** Two suspended programs that go through the same suspensions and end
    with the same result, in worlds that agree, when they are resumed in
    worlds that agree. *)
Inductive sim {E A} : Susp E A -> Susp E A -> Prop :=
| sim_done (w1 w2 : World E) (r : Outcome A) :
    agree w1 w2 -> sim (Done w1 r) (Done w2 r)
| sim_pause (w1 w2 : World E) (k1 k2 : World E -> Susp E A) :
    agree w1 w2 ->
    (forall w1' w2', agree w1' w2' -> sim (k1 w1') (k2 w2')) ->
    sim (Pause w1 k1) (Pause w2 k2).

(** A program whose course does not depend on [transferState]. *)
Definition respects {E A} (m : Prog E A) : Prop :=
  forall w1 w2, agree w1 w2 -> sim (m w1) (m w2).

(** Two systems with the same suspended transfers, in worlds that
    agree. *)
Definition sys_sim {E} (sys1 sys2 : System (E:=E)) : Prop :=
  agree (world sys1) (world sys2)
  /\ Forall2
       (fun k1 k2 => forall w1 w2, agree w1 w2 -> sim (k1 w1) (k2 w2))
       (tasks sys1) (tasks sys2).

(** The turns that resume a transfer. *)
Definition is_resume (t : Turn) : bool :=
  match t with
  | Resume _ => true
  | Deliver _ => false
  end.

(** The turns that start no transfer. *)
Definition starts_nothing (t : Turn) : bool :=
  match t with
  | Deliver (MsgStartTransfer _) => false
  | _ => true
  end.

(** *** Statements of the specification that the engine does not meet *)

(** The batches of the specification: consecutive groups of [batchSize]
    elements, the last one possibly smaller.  [fuel] bounds the number of
    batches. *)
Fixpoint spec_batches_fuel {A} (fuel batchSize : nat) (l : list A)
  : list (list A) :=
  match fuel, l with
  | 0, _ | _, [] => []
  | S fuel', _ =>
      take batchSize l :: spec_batches_fuel fuel' batchSize (drop batchSize l)
  end.

Definition spec_batches {A} (batchSize : nat) (l : list A)
  : list (list A) :=
  spec_batches_fuel (length l) batchSize l.

(** The claim on validation, as the specification states it: a request
    with identical platforms or without tracks is answered with an error,
    and no job is created. *)
Definition start_validates {E} (api : ExternalApis E) : Prop :=
  forall (transferData : TransferData) (w : World E),
    isTransferring (ts w) = false ->
    sourcePlatform transferData = targetPlatform transferData
    \/ pl_tracks (sourcePlaylist transferData) = [] ->
    let res := exec (handleStartTransfer api transferData) w in
    (exists msg, responses (log res.1) = responses (log w) ++ [RespError msg])
    /\ isTransferring (ts res.1) = false
    /\ res.2 = Ok None.

(** The claim on errors that a retry cannot cure, as the specification
    states it, for a classification of the errors: when the first
    invocation fails with such an error the operation has been invoked
    exactly once and that error is the result, whatever [maxAttempts]
    is. *)
Definition retry_fails_fast (non_transient : string -> bool) : Prop :=
  forall (operation : Z -> Outcome unit * Z) (maxAttempts : nat)
         (w : World Z) (err : string),
    invocation operation 0 (ext w) = Raise err ->
    non_transient err = true ->
    let res := exec (retryOperation operation (Some maxAttempts)) w in
    operation_calls (log res.1) = operation_calls (log w) + 1
    /\ res.2 = Raise err.

(** The claim on batches, as the specification states it: in a run that
    reaches its end from an empty log, the lists of tracks of the
    successive calls that add tracks are the batches of size
    [options.batchSize] of all the tracks added. *)
Definition inserts_in_batches {E} (api : ExternalApis E) : Prop :=
  forall (transferData : TransferData) (w w1 : World E),
    0 < batchSize (options transferData) ->
    log w = [] ->
    exec (performTransfer_try api transferData) w = (w1, Ok tt) ->
    (add_calls (log w1)).*2 =
    spec_batches (batchSize (options transferData))
      (concat (add_calls (log w1)).*2).

(** *** A concrete outside world

    The clock is the state of the outside world and every call of a
    platform function takes one tick.  Fetching a playlist returns the
    given library; the search finds every track but the one named
    ["missing"], and fails for the one named ["broken"]. *)

Definition demo_track (name : string) (position : nat) : Track :=
  mkTrack name ["Artist"] "Album" "3:00" position "spotify".

Definition demo_search (platform : string) (t : Track)
  : Outcome (option Track) :=
  if bool_decide (track_name t = "missing") then Ok None
  else if bool_decide (track_name t = "broken") then Raise "search failed"
  else
    Ok (Some (mkTrack (track_name t) (track_artists t) (track_album t)
                (track_duration t) (track_position t) platform)).

Definition demo_api (library : list Track) : ExternalApis Z :=
  let fetch := fun (_ : option TokenValue) (_ : string) (e : Z) =>
    (Ok library, (e + 1)%Z) in
  let create := fun (_ : option TokenValue) (d : PlaylistData) (e : Z) =>
    (Ok (mkPlaylist "target-1" (pd_name d) (pd_description d) 0 "" "" []),
     (e + 1)%Z) in
  let add := fun (_ : option TokenValue) (_ : string)
                 (_ : list MatchResult) (e : Z) =>
    (Ok tt, (e + 1)%Z) in
  mkExternalApis Z (fun e => e) fetch fetch fetch
    (fun p _ t e => (demo_search p t, (e + 1)%Z))
    create create create add add add.

Definition three_tracks : list Track :=
  [demo_track "Alpha" 1; demo_track "missing" 2; demo_track "Gamma" 3].

Definition five_tracks : list Track :=
  [demo_track "Alpha" 1; demo_track "Beta" 2; demo_track "Gamma" 3;
   demo_track "Delta" 4; demo_track "Epsilon" 5].

Definition demo_playlist (tracks : list Track) : Playlist :=
  mkPlaylist "pl-1" "Road trip" "" (length tracks) "spotify"
    "https://open.spotify.com/playlist/pl-1" tracks.

Definition demo_request (tracks : list Track) (source target : string)
    (batchSize : nat) : TransferData :=
  mkTransferData (demo_playlist tracks) source target
    (mkOptions "skip" batchSize).

(** The storage as [onInstalled] initialises it. *)
Definition installed_storage : Storage := mkStorage (Some ∅) (Some []).

Definition demo_world : World Z :=
  mkWorld initialTransferState installed_storage 0%Z [].

(** A world in which a transfer is running, in its matching phase. *)
Definition running_world : World Z :=
  mkWorld
    (mkTransferState true
       (Some (demo_request three_tracks "spotify" "apple" 50)) 30 []
       (Some "Searching for tracks on target platform..."))
    installed_storage 5%Z [].

Definition demo_record (n : Z) : TransferRecord :=
  mkTransferRecord (demo_playlist three_tracks) "spotify" "apple"
    (demo_playlist []) 2 3 n.

(** An operation that always fails with an error that no retry can
    cure. *)
Definition always_auth_error (e : Z) : Outcome unit * Z :=
  (Raise "AuthError: credential invalid", (e + 1)%Z).

(** The scenario of the specification: three source tracks, the search of
    the second one returns nothing. *)
Definition demo_transfer : TransferData :=
  demo_request three_tracks "spotify" "apple" 50.

Definition demo_completed : World Z :=
  (exec (performTransfer_try (demo_api three_tracks) demo_transfer)
     demo_world).1.

(** Five tracks that are all found, and a batch size of two. *)
Definition batch_transfer : TransferData :=
  demo_request five_tracks "spotify" "youtube" 2.

Definition batch_completed : World Z :=
  (exec (performTransfer_try (demo_api five_tracks) batch_transfer)
     demo_world).1.

(** A cancellation in the matching phase.  The transfer of the scenario is
    started and resumed four times: the first track has been searched and
    the search of the second is in flight.  Then the popup cancels, and
    the transfer is resumed until it ends. *)
Definition cancel_before : System (E:=Z) :=
  run_turns (demo_api three_tracks) (mkSystem demo_world [])
    (Deliver (MsgStartTransfer demo_transfer) :: replicate 4 (Resume 0)).

Definition cancel_requested : System (E:=Z) :=
  turn (demo_api three_tracks) cancel_before (Deliver MsgCancelTransfer).

Definition cancel_final : System (E:=Z) :=
  run_turns (demo_api three_tracks) cancel_requested
    (replicate 8 (Resume 0)).

(** ** The rest of the service worker *)

(** The functions that list the playlists of a platform over the network.
    Their bodies issue HTTP requests and decode the replies; here they are
    parameters, like the platform functions of the transfer, and [P] is
    the type of what they return. *)
Record PlaylistApis (E P : Type) := mkPlaylistApis {
  fetchSpotifyPlaylists : TokenValue -> E -> Outcome P * E;
  fetchApplePlaylists : TokenValue -> E -> Outcome P * E;
  fetchYouTubePlaylists : TokenValue -> E -> Outcome P * E
}.
Arguments fetchSpotifyPlaylists {E P} _ _ _.
Arguments fetchApplePlaylists {E P} _ _ _.
Arguments fetchYouTubePlaylists {E P} _ _ _.

(** An entry of the [status] object of [handleGetAuthStatus]. *)
Record PlatformStatus := mkPlatformStatus {
  authenticated : bool;
  status_expires : option Z
}.

(** What [handleGetAuthStatus] calls [sendResponse] with. *)
Inductive AuthStatusReply :=
| AuthStatusOk (status : list (string * PlatformStatus))
| AuthStatusError (msg : string).

(** What [handleGetPlaylists] calls [sendResponse] with. *)
Inductive PlaylistsReply (P : Type) :=
| PlaylistsOk (playlists : P)
| PlaylistsError (msg : string).
Arguments PlaylistsOk {P} playlists.
Arguments PlaylistsError {P} msg.

(** [Object.keys(PLATFORMS)] *)
Definition PLATFORMS_keys : list string :=
  ["spotify"; "apple"; "youtube"; "amazon"].

(** The [case] labels of the listener of [chrome.runtime.onMessage]. *)
Definition handled_actions : list string :=
  ["getAuthStatus"; "authenticate"; "getPlaylists"; "startTransfer";
   "getTransferStatus"; "cancelTransfer"; "saveApiKeys"; "getSettings";
   "updateSettings"].

Section Worker.
Context {E : Type} (api : ExternalApis E).

(** [x || null] for [token.expires]. *)
Definition expires_or_null (x : option Z) : option Z :=
  match x with
  | Some z => if (z =? 0)%Z then None else Some z
  | None => None
  end.

(** [handleGetAuthStatus(sendResponse)].  The handler calls
    [sendResponse] once, with the value returned here.  It reads
    [authTokens[platform]] for the four keys of [PLATFORMS] only, none of
    which is a name of [Object.prototype]: what is read is the entry of
    the object. *)
Definition handleGetAuthStatus : Prog E AuthStatusReply :=
  try_catch
    (result <- storage_get;;
     let tokens : gmap string AuthToken := default ∅ (authTokens result) in
     let status :=
       (fun platform =>
          (platform,
           mkPlatformStatus (truthy (tokens !! platform))
             (expires_or_null (tokens !! platform ≫= expires))))
         <$> PLATFORMS_keys in
     ret (AuthStatusOk status))
    (fun error => ret (AuthStatusError error)).

(** [await] of a function that goes over the network. *)
Definition net_call {A} (f : E -> Outcome A * E) : Prog E A :=
  await (fun w =>
    let '(r, e') := f (ext w) in
    (mkWorld (ts w) (storage w) e' (log w), r)).

Definition fetchAmazonPlaylists {P} (token : TokenValue) : Prog E P :=
  throw "Amazon Music API integration not yet implemented".

Definition fetchPlaylists {P} (net : PlaylistApis E P) (platform : string)
    (token : TokenValue) : Prog E P :=
  if decide (platform = "spotify") then
    net_call (fetchSpotifyPlaylists net token)
  else if decide (platform = "apple") then
    net_call (fetchApplePlaylists net token)
  else if decide (platform = "youtube") then
    net_call (fetchYouTubePlaylists net token)
  else if decide (platform = "amazon") then
    fetchAmazonPlaylists token
  else
    throw ("Unsupported platform: " +:+ platform).

(** [handleGetPlaylists(platform, sendResponse)].  The handler calls
    [sendResponse] once, with the value returned here. *)
Definition handleGetPlaylists {P} (net : PlaylistApis E P)
    (platform : string) : Prog E (PlaylistsReply P) :=
  try_catch
    (token <- getAuthToken api platform;;
     match token with
     | None => throw ("Not authenticated with " +:+ platform)
     | Some token =>
         playlists <- fetchPlaylists net platform token;;
         ret (PlaylistsOk playlists)
     end)
    (fun error => ret (PlaylistsError error)).

(** The [default] branch of the listener. *)
Definition listener_default : Prog E (option (Promise (E:=E))) :=
  sendResponse (RespError "Unknown action");;
  ret None.

(** The listener of [chrome.runtime.onMessage], as a function of what the
    branches of its nine [case] labels do. *)
Definition listener (branch : string -> Prog E (option (Promise (E:=E))))
    (action : string) : Prog E (option (Promise (E:=E))) :=
  if bool_decide (action ∈ handled_actions) then branch action
  else listener_default.

End Worker.

(** *** The rate limiter *)

Module RateLimiter.

(** An instance of the class: [requestsPerSecond] and the times of the
    requests let through, in milliseconds. *)
Record t := mk {
  requestsPerSecond : Z;
  requests : list Z
}.

(** [new RateLimiter(requestsPerSecond = 10)] *)
Definition new (requestsPerSecond : option Z) : t :=
  mk (default 10%Z requestsPerSecond) [].

(** [Math.min(...xs)]; [None] is [Infinity], the minimum of no number. *)
Definition Math_min (xs : list Z) : option Z :=
  match xs with
  | [] => None
  | x :: xs' => Some (foldl Z.min x xs')
  end.

(** The delay given to [setTimeout]. *)
Inductive Delay :=
| Finite (ms : Z)
| Infinite.

(** [waitForSlot()] up to its suspension, at time [now]: the requests
    older than one second are forgotten, and the caller has to wait when
    the rest has reached the limit. *)
Definition enter (now : Z) (self : t) : t * option Delay :=
  let requests :=
    filter (fun time => (now - time < 1000)%Z) (requests self) in
  let self := mk (requestsPerSecond self) requests in
  if (requestsPerSecond self <=? Z.of_nat (length requests))%Z then
    let waitTime :=
      match Math_min requests with
      | Some oldestRequest => Finite (1000 - (now - oldestRequest))
      | None => Infinite
      end in
    (self, Some waitTime)
  else (self, None).

(** The end of [waitForSlot()]: the time read at its start is recorded. *)
Definition leave (now : Z) (self : t) : t :=
  mk (requestsPerSecond self) (requests self ++ [now]).

(** [waitForSlot()] with no other caller during its wait. *)
Definition waitForSlot (now : Z) (self : t) : t * option Delay :=
  let '(self', wait) := enter now self in
  (leave now self', wait).

(** The earliest time at which a caller that called at [now] goes on;
    [None] when the delay is not a number of milliseconds. *)
Definition released_at (now : Z) (wait : option Delay) : option Z :=
  match wait with
  | None => Some now
  | Some (Finite ms) => Some (now + ms)%Z
  | Some Infinite => None
  end.

(** Successive calls at the given times, each one ended before the next:
    the times at which the callers go on, and the limiter left. *)
Fixpoint calls (times : list Z) (self : t) : list (option Z) * t :=
  match times with
  | [] => ([], self)
  | now :: rest =>
      let '(self', wait) := waitForSlot now self in
      let '(released, self'') := calls rest self' in
      (released_at now wait :: released, self'')
  end.

End RateLimiter.

(** *** The popup: button, history and status *)

Module PopupUI.

(** What [getPlatformDisplayName] returns: a string or, for a name that
    the object [names] inherits from [Object.prototype], the member of
    that name, which is what [names[platform]] evaluates to. *)
Inductive DisplayName :=
| NameText (text : string)
| NameMember (name : string).

(** [getPlatformDisplayName(platform)] *)
Definition getPlatformDisplayName (platform : string) : DisplayName :=
  if decide (platform = "spotify") then NameText "Spotify"
  else if decide (platform = "apple") then NameText "Apple Music"
  else if decide (platform = "youtube") then NameText "YouTube Music"
  else if decide (platform = "amazon") then NameText "Amazon Music"
  else if bool_decide (platform ∈ Object_prototype_names)
  then NameMember platform
  else NameText platform.

(** [authStatus], the [status] object received from the service worker. *)
Definition authStatus_of (status : list (string * PlatformStatus))
  : gmap string PlatformStatus :=
  list_to_map status.

(** [authStatus[platform]?.authenticated]; a member inherited from
    [Object.prototype] has no [authenticated], as a name that is not found
    has none. *)
Definition is_authenticated (authStatus : gmap string PlatformStatus)
    (platform : string) : bool :=
  match authStatus !! platform with
  | Some s => authenticated s
  | None => false
  end.

(** [updateTransferButton()]: the value given to
    [startTransferBtn.disabled]. *)
Definition updateTransferButton (source target : string)
    (authStatus : gmap string PlatformStatus) : bool :=
  let canTransfer :=
    negb (bool_decide (source = "")) && negb (bool_decide (target = ""))
    && negb (bool_decide (source = target))
    && is_authenticated authStatus source
    && is_authenticated authStatus target in
  negb canTransfer.

(** What an entry of the history list shows of a record. *)
Record HistoryItem := mkHistoryItem {
  item_title : string;
  item_timestamp : Z;
  item_source : DisplayName;
  item_target : DisplayName;
  item_transferred : nat;
  item_total : nat
}.

Definition history_item (transfer : TransferRecord) : HistoryItem :=
  mkHistoryItem (pl_name (rec_sourcePlaylist transfer)) (timestamp transfer)
    (getPlatformDisplayName (rec_sourcePlatform transfer))
    (getPlatformDisplayName (rec_targetPlatform transfer))
    (transferredTracks transfer) (totalTracks transfer).

(** What [updateHistoryUI()] puts in the history container. *)
Inductive HistoryView :=
| NoRecentTransfers
| HistoryItems (items : list HistoryItem).

Definition updateHistoryUI (transferHistory : list TransferRecord)
  : HistoryView :=
  if decide (length transferHistory = 0) then NoRecentTransfers
  else HistoryItems (history_item <$> take 5 transferHistory).

(** [loadTransferHistory()]: the history is read from the storage and
    shown. *)
Definition loadTransferHistory {E} (w : World E) : HistoryView :=
  updateHistoryUI (default [] (transferHistory (storage w))).

End PopupUI.

(** *** The content scripts: the button injected in the page *)

Module Content.

(** What a click on the injected button does first. *)
Inductive Click :=
| ShowNotification (msg type : string)
| SendMessage (action : string) (playlist : Playlist) (platform : string).

(** [handleTransferClick(event)], the same in the four content scripts,
    up to the message sent. *)
Definition handleTransferClick (currentPlaylist : option Playlist)
    (PLATFORM : string) : Click :=
  match currentPlaylist with
  | None => ShowNotification "Please wait for playlist data to load" "error"
  | Some playlist => SendMessage "openTransferDialog" playlist PLATFORM
  end.

(** The callback of the message: the notification shown for a reply. *)
Definition transferClick_callback (response : option Response)
  : string * string :=
  match response with
  | Some (RespError e) =>
      if decide (e = "") then ("Transfer dialog opened", "success")
      else (e, "error")
  | _ => ("Transfer dialog opened", "success")
  end.

End Content.

(** *** More definitions of statements *)


(** The notifications of progress sent to the popup, oldest first. *)
Definition progress_events (l : list Event) : list (float * string) :=
  omap (fun ev =>
          match ev with
          | EvProgress p msg => Some (p, msg)
          | _ => None
          end) l.

(** What every phase of a transfer before the write to the history keeps
    of the world, and the calls of platform functions it adds. *)
Definition effect {E} (w w' : World E) (calls : list Event) : Prop :=
  storage w' = storage w
  /\ errors (ts w') = errors (ts w)
  /\ isTransferring (ts w') = isTransferring (ts w)
  /\ currentTransfer (ts w') = currentTransfer (ts w)
  /\ platform_calls (log w') = platform_calls (log w) ++ calls.

(** The calls of platform functions of a transfer that goes through all
    its phases. *)
Definition transfer_calls (transferData : TransferData)
    (sourceTracks : list Track) (targetPlaylist : Playlist)
    (submitted : list MatchResult) : list Event :=
  [EvGetTracks (sourcePlatform transferData)
     (pl_id (sourcePlaylist transferData))]
  ++ (EvSearch (targetPlatform transferData) <$> sourceTracks)
  ++ [EvCreate (targetPlatform transferData)
        (mkPlaylistData (pl_name (sourcePlaylist transferData))
           (pl_description (sourcePlaylist transferData)));
      EvAddTracks (targetPlatform transferData) (pl_id targetPlaylist)
        submitted].

(** The suspended rest of a program started in a world. *)
Definition pending {E} (m : Prog E unit) (w : World E)
  : list (World E -> Susp E unit) :=
  match m w with
  | Done _ _ => []
  | Pause _ k => [k]
  end.

(** *** More of the concrete outside world *)

(** A transfer to a platform that the engine does not know. *)
Definition amazon_transfer : TransferData :=
  demo_request three_tracks "spotify" "amazon" 50.

(** A transfer from a platform that the engine does not know. *)
Definition from_amazon_transfer : TransferData :=
  demo_request three_tracks "amazon" "spotify" 50.

(** An outside world in which the search finds nothing. *)
Definition silent_api (library : list Track) : ExternalApis Z :=
  let fetch := fun (_ : option TokenValue) (_ : string) (e : Z) =>
    (Ok library, (e + 1)%Z) in
  let create := fun (_ : option TokenValue) (d : PlaylistData) (e : Z) =>
    (Ok (mkPlaylist "target-1" (pd_name d) (pd_description d) 0 "" "" []),
     (e + 1)%Z) in
  let add := fun (_ : option TokenValue) (_ : string)
                 (_ : list MatchResult) (e : Z) =>
    (Ok tt, (e + 1)%Z) in
  mkExternalApis Z (fun e => e) fetch fetch fetch
    (fun _ _ _ e => (Ok None, (e + 1)%Z))
    create create create add add add.

(** A storage with a Spotify token that expired before the clock of
    [demo_world] started, and listing functions that return the number
    of milliseconds on the clock. *)
Definition expired_world : World Z :=
  mkWorld initialTransferState
    (mkStorage (Some {[ "spotify" := mkAuthToken "old-token" (Some (-1)%Z) ]})
       (Some []))
    0%Z [].

Definition demo_net : PlaylistApis Z Z :=
  let list := fun (_ : TokenValue) (e : Z) => (Ok e, (e + 1)%Z) in
  mkPlaylistApis Z Z list list list.

(** A storage with tokens for Spotify and Amazon, the first one expired
    before the clock started. *)
Definition connected_world : World Z :=
  mkWorld initialTransferState
    (mkStorage
       (Some {[ "spotify" := mkAuthToken "old-token" (Some (-1)%Z);
                "amazon" := mkAuthToken "amazon-token" None ]})
       (Some []))
    0%Z [].

(** ** Numbers *)

Example float_of_nat_5 : float_of_nat 5 = 5%float.
Proof. reflexivity. Qed.

Example search_progress_1_of_2 :
  (30 + (float_of_nat 1 / float_of_nat 2) * 30)%float = 45%float.
Proof. reflexivity. Qed.

(** ** Laws of the monad *)

Section MonadLaws.
Context {E : Type}.

Lemma runS_bindS {A B} (s : Susp E A) (f : A -> Prog E B) :
  runS (bindS s f) =
  match runS s with
  | (w, Ok a) => runS (f a w)
  | (w, Raise e) => (w, Raise e)
  end.
Proof.
  induction s as [w [a|e]|w k IH]; simpl; auto.
Qed.

Lemma runS_catchS {A} (s : Susp E A) (h : string -> Prog E A) :
  runS (catchS s h) =
  match runS s with
  | (w, Ok a) => (w, Ok a)
  | (w, Raise e) => runS (h e w)
  end.
Proof.
  induction s as [w [a|e]|w k IH]; simpl; auto.
Qed.

Lemma runS_finallyS {A} (s : Susp E A) (fin : Prog E unit) :
  runS (finallyS s fin) =
  match runS s with
  | (w, r) =>
      match runS (fin w) with
      | (w', Ok _) => (w', r)
      | (w', Raise e) => (w', Raise e)
      end
  end.
Proof.
  induction s as [w r|w k IH]; simpl; auto.
  rewrite runS_bindS. destruct (runS (fin w)) as [w' [[]|e]]; reflexivity.
Qed.

Lemma exec_ret {A} (a : A) (w : World E) : exec (ret a) w = (w, Ok a).
Proof. reflexivity. Qed.

Lemma exec_throw {A} (e : string) (w : World E) :
  exec (throw e : Prog E A) w = (w, Raise e).
Proof. reflexivity. Qed.

Lemma exec_gets {A} (f : World E -> A) (w : World E) :
  exec (gets f) w = (w, Ok (f w)).
Proof. reflexivity. Qed.

Lemma exec_modify (f : World E -> World E) (w : World E) :
  exec (modify f) w = (f w, Ok tt).
Proof. reflexivity. Qed.

Lemma exec_await {A} (act : World E -> World E * Outcome A) (w : World E) :
  exec (await act) w = act w.
Proof. unfold exec, await; simpl. destruct (act w); reflexivity. Qed.

Lemma exec_bind {A B} (m : Prog E A) (f : A -> Prog E B) (w : World E) :
  exec (bind m f) w =
  match exec m w with
  | (w', Ok a) => exec (f a) w'
  | (w', Raise e) => (w', Raise e)
  end.
Proof. apply runS_bindS. Qed.

Lemma exec_try_catch {A} (m : Prog E A) (h : string -> Prog E A)
    (w : World E) :
  exec (try_catch m h) w =
  match exec m w with
  | (w', Ok a) => (w', Ok a)
  | (w', Raise e) => exec (h e) w'
  end.
Proof. apply runS_catchS. Qed.

Lemma exec_try_finally {A} (m : Prog E A) (fin : Prog E unit)
    (w : World E) :
  exec (try_finally m fin) w =
  match exec m w with
  | (w', r) =>
      match exec fin w' with
      | (w'', Ok _) => (w'', r)
      | (w'', Raise e) => (w'', Raise e)
      end
  end.
Proof. apply runS_finallyS. Qed.

End MonadLaws.

(** ** [handleStartTransfer] *)

Section StartTransfer.
Context {E : Type} (api : ExternalApis E).

(** The handler runs to its end without suspending; when a transfer is
    running it answers with the error and takes the [catch] branch. *)
Lemma handleStartTransfer_busy (transferData : TransferData) (w : World E) :
  isTransferring (ts w) = true ->
  handleStartTransfer api transferData w =
  Done
    (add_log (EvResponse (RespError "Transfer already in progress"))
       (set_ts (fun st =>
          mkTransferState false (currentTransfer st) (progress st)
            (errors st) (message st)) w))
    (Ok None).
Proof.
  intros Hbusy. unfold handleStartTransfer, try_catch, bind, gets.
  simpl. rewrite Hbusy. reflexivity.
Qed.

Lemma handleStartTransfer_idle (transferData : TransferData) (w : World E) :
  isTransferring (ts w) = false ->
  exists k,
    handleStartTransfer api transferData w =
    Done (started_world transferData w) (Ok (Some (Pending k))).
Proof.
  intros Hidle. unfold handleStartTransfer, try_catch, bind, gets.
  simpl. rewrite Hidle. simpl. eexists. reflexivity.
Qed.

End StartTransfer.

Section LogFacts.

Lemma responses_app (l1 l2 : list Event) :
  responses (l1 ++ l2) = responses l1 ++ responses l2.
Proof. apply omap_app. Qed.

Lemma add_calls_app (l1 l2 : list Event) :
  add_calls (l1 ++ l2) = add_calls l1 ++ add_calls l2.
Proof. apply omap_app. Qed.

Lemma search_calls_app (l1 l2 : list Event) :
  search_calls (l1 ++ l2) = search_calls l1 ++ search_calls l2.
Proof. apply omap_app. Qed.

Lemma operation_calls_app (l1 l2 : list Event) :
  operation_calls (l1 ++ l2) = operation_calls l1 + operation_calls l2.
Proof. unfold operation_calls. rewrite omap_app, length_app. reflexivity. Qed.

End LogFacts.

(** ** The claims on [handleStartTransfer] *)

(** C1 (the code departs from the claim).  A transfer is running and its
    state records progress 30.  A second [startTransfer] is answered with
    the error "Transfer already in progress" and starts nothing, and it
    leaves [currentTransfer], [progress] and [errors] as they were; but the
    [catch] block of the handler sets [isTransferring] to [false], so the
    state of the running job is not left as it was. *)
Theorem start_while_running_clears_flag :
  let request := demo_request five_tracks "spotify" "youtube" 50 in
  let res :=
    exec (handleStartTransfer (demo_api five_tracks) request) running_world
  in
  isTransferring (ts running_world) = true
  /\ res.2 = Ok None
  /\ responses (log res.1) = [RespError "Transfer already in progress"]
  /\ currentTransfer (ts res.1) = currentTransfer (ts running_world)
  /\ progress (ts res.1) = progress (ts running_world)
  /\ errors (ts res.1) = errors (ts running_world)
  /\ isTransferring (ts res.1) = false.
Proof.
  unfold exec. rewrite handleStartTransfer_busy by reflexivity.
  repeat split.
Qed.

(** What follows from it: the conflict itself reopens the engine.  After
    a rejected [startTransfer], a third one is accepted while the first
    transfer is still suspended, and two transfers are in flight. *)
Example conflict_lets_a_second_transfer_start :
  let start := Deliver (MsgStartTransfer demo_transfer) in
  let sys :=
    run_turns (demo_api three_tracks) (mkSystem demo_world [])
      [start; start; start] in
  responses (log (world sys)) =
  [RespSuccess "Transfer started";
   RespError "Transfer already in progress";
   RespSuccess "Transfer started"]
  /\ length (tasks sys) = 2.
Proof. vm_compute. split; reflexivity. Qed.

(** C2, the claim as stated fails: with no transfer running, a request
    from Spotify to Spotify for a playlist without tracks is accepted. *)
Lemma start_validates_fails : ~ start_validates (demo_api []).
Proof.
  intros H.
  destruct (H (demo_request [] "spotify" "spotify" 50) demo_world)
    as (_ & Hflag & _); [reflexivity | left; reflexivity |].
  unfold exec in Hflag.
  destruct (handleStartTransfer_idle (demo_api [])
              (demo_request [] "spotify" "spotify" 50) demo_world)
    as [k Hk]; [reflexivity |].
  rewrite Hk in Hflag. discriminate Hflag.
Qed.

(** C2, amended.  [handleStartTransfer] validates nothing: with no
    transfer running, every request (identical platforms and empty
    playlists included) is answered with success, becomes the current
    transfer of a state that is transferring, and [performTransfer] is
    entered and suspended on its first asynchronous call.  The check that
    the two platforms differ is made by the popup, which sends no
    [startTransfer] message when they are equal. *)
Theorem start_accepts_every_request {E} (api : ExternalApis E)
    (transferData : TransferData) (w : World E) :
  isTransferring (ts w) = false ->
  (exists k,
     exec (handleStartTransfer api transferData) w =
     (started_world transferData w, Ok (Some (Pending k))))
  /\ isTransferring (ts (started_world transferData w)) = true
  /\ currentTransfer (ts (started_world transferData w)) = Some transferData
  /\ responses (log (started_world transferData w)) =
     responses (log w) ++ [RespSuccess "Transfer started"]
  /\ (forall platform tab reply settings,
        Popup.handleStartTransfer platform platform tab reply settings =
        Popup.Notify "Please select different source and target platforms").
Proof.
  intros Hidle. split; [|repeat split].
  - destruct (handleStartTransfer_idle api transferData w Hidle) as [k Hk].
    exists k. unfold exec. rewrite Hk. reflexivity.
  - unfold started_world, add_log; simpl.
    rewrite !responses_app. simpl. rewrite app_nil_r. reflexivity.
  - intros platform tab reply settings. unfold Popup.handleStartTransfer.
    rewrite (bool_decide_eq_true_2 (platform = platform)) by reflexivity.
    rewrite !orb_true_r. reflexivity.
Qed.

Lemma start_accepts_every_request_witness :
  isTransferring (ts demo_world) = false
  /\ currentTransfer
       (ts (started_world (demo_request [] "spotify" "spotify" 50)
              demo_world)) =
     Some (demo_request [] "spotify" "spotify" 50).
Proof.
  split; [reflexivity |].
  apply (start_accepts_every_request (demo_api [])
           (demo_request [] "spotify" "spotify" 50) demo_world).
  reflexivity.
Defined.

(** ** The history *)

Section History.
Context {E : Type}.

Lemma push_history_take (r : TransferRecord) (h : list TransferRecord) :
  push_history r h = take 50 (r :: h).
Proof.
  unfold push_history.
  destruct (50 <? length (r :: h)) eqn:Hlen; [reflexivity |].
  apply Nat.ltb_ge in Hlen. symmetry. apply take_ge. exact Hlen.
Qed.

Lemma push_history_length (r : TransferRecord) (h : list TransferRecord) :
  length (push_history r h) <= 50.
Proof. rewrite push_history_take, length_take. lia. Qed.

Lemma push_history_front (r : TransferRecord) (h : list TransferRecord) :
  push_history r h !! 0 = Some r.
Proof. rewrite push_history_take. reflexivity. Qed.

Lemma exec_saveTransferHistory (r : TransferRecord) (w : World E) :
  exec (saveTransferHistory r) w =
  (set_storage
     (fun s => mkStorage (authTokens s) (Some (push_history r (history_of w))))
     w,
   Ok tt).
Proof. reflexivity. Qed.

Lemma history_of_save (r : TransferRecord) (w : World E) :
  history_of (exec (saveTransferHistory r) w).1 =
  push_history r (history_of w).
Proof. reflexivity. Qed.

Lemma take_app_take {A} (n : nat) (l m : list A) :
  take n (l ++ take n m) = take n (l ++ m).
Proof.
  rewrite !take_app, take_take. f_equal. f_equal. lia.
Qed.

(** After a non-empty sequence of appends the history is the fifty most
    recent records of the whole log, newest first. *)
Lemma history_of_save_all (rs : list TransferRecord) (w : World E) :
  history_of (exec (save_all rs) w).1 =
  match rs with
  | [] => history_of w
  | _ => take 50 (reverse rs ++ history_of w)
  end.
Proof.
  revert w. induction rs as [|r rs IH]; intros w; [reflexivity |].
  simpl save_all. rewrite exec_bind, exec_saveTransferHistory.
  rewrite IH.
  change (history_of (set_storage _ w))
    with (push_history r (history_of w)).
  rewrite push_history_take.
  destruct rs as [|r' rs]; [reflexivity |].
  rewrite take_app_take, (reverse_cons _ r), <- app_assoc. reflexivity.
Qed.

End History.

(** C5.  Every append leaves at most fifty records, with the new record at
    the front, whatever was stored before; a history within the bound
    stays within it along every sequence of appends; and after fifty-one
    appends to the empty history the record appended first is gone: what
    is retrieved is the other fifty, newest first, so that index 0 holds
    the record appended last. *)
Theorem history_holds_fifty_newest_first {E} (w : World E) :
  (forall r : TransferRecord,
     let h := history_of (exec (saveTransferHistory r) w).1 in
     length h <= 50 /\ h !! 0 = Some r /\ h = take 50 (r :: history_of w))
  /\ (forall rs : list TransferRecord,
        length (history_of w) <= 50 ->
        length (history_of (exec (save_all rs) w).1) <= 50)
  /\ (forall rs : list TransferRecord,
        history_of w = [] ->
        length rs = 51 ->
        let h := history_of (exec (save_all rs) w).1 in
        h = reverse (drop 1 rs)
        /\ h !! 0 = last rs
        /\ length h = 50
        /\ (NoDup rs -> forall r, head rs = Some r -> r ∉ h)).
Proof.
  split; [|split].
  - intros r h. subst h. rewrite history_of_save.
    auto using push_history_length, push_history_front, push_history_take.
  - intros rs Hlen. rewrite history_of_save_all.
    destruct rs; [exact Hlen |]. rewrite length_take. lia.
  - intros rs Hempty Hlen h. subst h. rewrite history_of_save_all.
    destruct rs as [|r0 rs]; [discriminate Hlen |].
    rewrite Hempty, app_nil_r, take_reverse, Hlen.
    change (51 - 50) with 1. simpl drop. rewrite drop_0.
    split; [reflexivity |]. split; [|split].
    + rewrite <- head_lookup, head_reverse.
      destruct rs; [discriminate Hlen | reflexivity].
    + rewrite length_reverse. simpl in Hlen. lia.
    + intros Hnd r Hr. injection Hr as <-.
      apply NoDup_cons in Hnd as [Hnotin _].
      rewrite elem_of_reverse. exact Hnotin.
Qed.

Lemma history_holds_fifty_newest_first_witness :
  let rs := map demo_record (seqZ 1 51) in
  history_of (exec (save_all rs) demo_world).1 !! 0 = Some (demo_record 51)
  /\ length (history_of (exec (save_all rs) demo_world).1) = 50.
Proof.
  pose proof (history_holds_fifty_newest_first demo_world) as (_ & _ & H).
  specialize (H (map demo_record (seqZ 1 51)) eq_refl eq_refl).
  destruct H as (_ & H0 & Hlen & _).
  split; [exact H0 | exact Hlen].
Defined.

(** ** [retryOperation] *)

Section Retry.
Context {E A : Type} (operation : E -> Outcome A * E).

Lemma exec_call {B} (ev : Event) (f : E -> Outcome B * E) (w : World E) :
  exec (call ev f) w =
  (mkWorld (ts w) (storage w) (f (ext w)).2 (log w ++ [ev]), (f (ext w)).1).
Proof.
  unfold exec, call, bind, modify, await; simpl.
  destruct (f (ext w)); reflexivity.
Qed.

(** One iteration of the loop. *)
Lemma exec_retry_loop_cons (maxRetries attempt : nat) (rest : list nat)
    (w : World E) :
  exec (retry_loop operation maxRetries (attempt :: rest)) w =
  match (operation (ext w)).1 with
  | Ok a => (invoked_world operation w, Ok (Some a))
  | Raise err =>
      if decide (attempt = maxRetries)
      then (invoked_world operation w, Raise err)
      else
        exec (retry_loop operation maxRetries rest)
          (add_log (EvSetTimeout (1000 * Z.of_nat attempt))
             (invoked_world operation w))
  end.
Proof.
  simpl retry_loop.
  rewrite exec_bind, exec_try_catch, exec_bind, exec_call.
  fold (invoked_world operation w).
  destruct (operation (ext w)).1 as [a|err]; [reflexivity |].
  destruct (decide (attempt = maxRetries)); [reflexivity |].
  reflexivity.
Qed.

Lemma retry_loop_calls_le (maxRetries : nat) (attempts : list nat)
    (w : World E) :
  operation_calls (log (exec (retry_loop operation maxRetries attempts) w).1)
  <= operation_calls (log w) + length attempts.
Proof.
  revert w. induction attempts as [|attempt rest IH]; intros w.
  - simpl. lia.
  - rewrite exec_retry_loop_cons.
    assert (Hinv : operation_calls (log (invoked_world operation w)) =
                   operation_calls (log w) + 1)
      by (unfold invoked_world; simpl; apply operation_calls_app).
    destruct (operation (ext w)).1 as [a|err].
    + cbn [fst]. rewrite Hinv. cbn [length]. lia.
    + destruct (decide (attempt = maxRetries)).
      * cbn [fst]. rewrite Hinv. cbn [length]. lia.
      * etransitivity; [apply IH |].
        unfold add_log; cbn [log]. rewrite operation_calls_app, Hinv.
        cbn [length]. change (operation_calls [EvSetTimeout _]) with 0.
        lia.
Qed.

(** When the invocations all fail, whatever their errors, the loop goes
    through all its attempts and ends with the error of the last one. *)
Lemma retry_loop_all_fail (maxRetries n i : nat) (w : World E) :
  i + n = maxRetries ->
  (forall k, k <= n ->
     exists err, invocation operation k (ext w) = Raise err) ->
  let res := exec (retry_loop operation maxRetries (seq i (S n))) w in
  exists err,
    invocation operation n (ext w) = Raise err
    /\ res.2 = Raise err
    /\ operation_calls (log res.1) = operation_calls (log w) + S n.
Proof.
  revert i w. induction n as [|n IH]; intros i w Hi Hfail res; subst res.
  - destruct (Hfail 0 (Nat.le_refl 0)) as [err Herr].
    exists err. split; [exact Herr |].
    simpl seq. rewrite exec_retry_loop_cons.
    unfold invocation in Herr; simpl in Herr. rewrite Herr.
    destruct (decide (i = maxRetries)); [|lia].
    cbn [fst snd]. split; [reflexivity |].
    apply operation_calls_app.
  - destruct (Hfail 0 (Nat.le_0_l _)) as [err Herr].
    change (seq i (S (S n))) with (i :: seq (S i) (S n)).
    rewrite exec_retry_loop_cons.
    unfold invocation in Herr; simpl in Herr. rewrite Herr.
    destruct (decide (i = maxRetries)); [lia |].
    destruct (IH (S i)
      (add_log (EvSetTimeout (1000 * Z.of_nat i))
         (invoked_world operation w)))
      as (err' & Hinv & Hres & Hcalls); [lia | |].
    + intros k Hk. apply (Hfail (S k)). lia.
    + exists err'. split; [exact Hinv |]. split; [exact Hres |].
      rewrite Hcalls. unfold add_log, invoked_world; cbn [log].
      rewrite !operation_calls_app.
      change (operation_calls [EvSetTimeout _]) with 0.
      change (operation_calls [EvOperation]) with 1. lia.
Qed.

(** The first invocation that succeeds ends the loop with its value. *)
Lemma retry_loop_first_success (maxRetries k n i : nat) (a : A)
    (w : World E) :
  i + k < maxRetries + 1 -> k < n ->
  (forall j, j < k -> exists err, invocation operation j (ext w) = Raise err) ->
  invocation operation k (ext w) = Ok a ->
  let res := exec (retry_loop operation maxRetries (seq i n)) w in
  res.2 = Ok (Some a)
  /\ operation_calls (log res.1) = operation_calls (log w) + S k.
Proof.
  revert n i w.
  induction k as [|k IH]; intros n i w Hi Hn Hfail Hok res; subst res.
  - destruct n as [|n]; [lia |]. simpl seq. rewrite exec_retry_loop_cons.
    unfold invocation in Hok; simpl in Hok. rewrite Hok. cbn [fst snd].
    split; [reflexivity | apply operation_calls_app].
  - destruct n as [|n]; [lia |]. simpl seq. rewrite exec_retry_loop_cons.
    destruct (Hfail 0 (Nat.lt_0_succ _)) as [err Herr].
    unfold invocation in Herr; simpl in Herr. rewrite Herr.
    destruct (decide (i = maxRetries)); [lia |].
    destruct (IH n (S i)
      (add_log (EvSetTimeout (1000 * Z.of_nat i))
         (invoked_world operation w)))
      as [IHr IHc]; [lia | lia | | exact Hok |].
    + intros j Hj. apply (Hfail (S j)). lia.
    + split; [exact IHr |].
      rewrite IHc. unfold add_log, invoked_world; cbn [log].
      rewrite !operation_calls_app.
      change (operation_calls [EvSetTimeout _]) with 0.
      change (operation_calls [EvOperation]) with 1. lia.
Qed.

Lemma retryOperation_default (w : World E) :
  retryOperation operation None w = retryOperation operation (Some 3) w.
Proof. reflexivity. Qed.

End Retry.

(** C4, the claim as stated fails: an operation whose every invocation
    fails with an authorization error is invoked three times when
    [maxAttempts] is 3, not once; and when [maxAttempts] is 0 it is not
    invoked at all and the call ends without an error. *)
Lemma retry_fails_fast_fails :
  ~ retry_fails_fast
      (fun err => bool_decide (err = "AuthError: credential invalid"))
  /\ operation_calls
       (log (exec (retryOperation always_auth_error (Some 3)) demo_world).1)
     = 3
  /\ exec (retryOperation always_auth_error (Some 0)) demo_world
     = (demo_world, Ok None).
Proof.
  split; [|split; reflexivity].
  intros H.
  destruct (H always_auth_error 3 demo_world "AuthError: credential invalid")
    as [Hcalls _]; [reflexivity | reflexivity |].
  vm_compute in Hcalls. discriminate Hcalls.
Qed.

(** C4, amended.  [retryOperation] invokes the operation at most
    [maxAttempts] times.  It does not look at the kind of an error: when
    [maxAttempts] is at least 1 and the invocations all fail, it makes
    exactly [maxAttempts] of them and ends with the error of the last
    one, unchanged; the first invocation that succeeds ends it with the
    value returned.  With [maxAttempts = 0] the operation is not invoked
    and no error is raised. *)
Theorem retry_bounded_last_error {E A} (operation : E -> Outcome A * E)
    (maxAttempts : nat) (w : World E) :
  let res := exec (retryOperation operation (Some maxAttempts)) w in
  operation_calls (log res.1) <= operation_calls (log w) + maxAttempts
  /\ (1 <= maxAttempts ->
      (forall k, k < maxAttempts ->
         exists err, invocation operation k (ext w) = Raise err) ->
      exists err,
        invocation operation (maxAttempts - 1) (ext w) = Raise err
        /\ res.2 = Raise err
        /\ operation_calls (log res.1) =
           operation_calls (log w) + maxAttempts)
  /\ (forall k a,
        k < maxAttempts ->
        (forall j, j < k ->
           exists err, invocation operation j (ext w) = Raise err) ->
        invocation operation k (ext w) = Ok a ->
        res.2 = Ok (Some a)
        /\ operation_calls (log res.1) = operation_calls (log w) + S k)
  /\ (maxAttempts = 0 -> res = (w, Ok None)).
Proof.
  intros res. subst res. unfold retryOperation. simpl default.
  split; [|split; [|split]].
  - etransitivity; [apply retry_loop_calls_le |].
    rewrite length_seq. reflexivity.
  - intros Hpos Hfail. destruct maxAttempts as [|n]; [lia |].
    replace (S n - 1) with n by lia.
    apply (retry_loop_all_fail operation (S n) n 1 w); [lia |].
    intros k Hk. apply Hfail. lia.
  - intros k a Hk Hfail Hok.
    apply (retry_loop_first_success operation maxAttempts k maxAttempts 1
             a w); [lia | lia | exact Hfail | exact Hok].
  - intros ->. reflexivity.
Qed.

Lemma retry_bounded_last_error_witness :
  (exec (retryOperation always_auth_error (Some 3)) demo_world).2 =
  Raise "AuthError: credential invalid".
Proof.
  destruct (retry_bounded_last_error always_auth_error 3 demo_world)
    as (_ & Hfail & _).
  destruct Hfail as (err & Hlast & Hres & _).
  - lia.
  - intros k _. exists "AuthError: credential invalid". reflexivity.
  - rewrite Hres. injection Hlast as <-. reflexivity.
Defined.

(** ** The phases of a transfer *)

Section Phases.
Context {E : Type} (api : ExternalApis E).

Lemma frame_refl (w : World E) : frame w w.
Proof. split; reflexivity. Qed.

Lemma frame_trans (w1 w2 w3 : World E) :
  frame w1 w2 -> frame w2 w3 -> frame w1 w3.
Proof. intros [Hs1 Ha1] [Hs2 Ha2]. split; congruence. Qed.

Lemma exec_updateProgress (p : float) (msg : string) (w : World E) :
  exec (updateProgress p msg) w =
  (add_log (EvProgress p msg) (set_ts (progress_ts p msg) w), Ok tt).
Proof. reflexivity. Qed.

Lemma frame_updateProgress (p : float) (msg : string) (w : World E) :
  frame w (add_log (EvProgress p msg) (set_ts (progress_ts p msg) w)).
Proof.
  split; [reflexivity |]. unfold add_log; simpl.
  rewrite add_calls_app. apply app_nil_r.
Qed.

Lemma exec_getAuthToken (platform : string) (w : World E) :
  exec (getAuthToken api platform) w = (w, Ok (current_token api platform w)).
Proof.
  unfold getAuthToken, current_token, storage_get.
  rewrite exec_bind, exec_await.
  destruct (authTokens_get (default ∅ (authTokens (storage w))) platform)
    as [token|]; [|reflexivity].
  rewrite exec_bind. unfold Date_now. rewrite exec_gets.
  destruct (value_expired token (date_now api (ext w))); reflexivity.
Qed.

(** A call of a platform function other than those that add tracks. *)
Lemma frame_call {A} (ev : Event) (f : E -> Outcome A * E) (w : World E) :
  add_calls [ev] = [] -> frame w (exec (call ev f) w).1.
Proof.
  intros Hev. rewrite exec_call. split; [reflexivity |]. simpl.
  rewrite add_calls_app, Hev. apply app_nil_r.
Qed.

Lemma frame_getPlaylistTracks (platform playlistId : string) (w : World E) :
  frame w (exec (getPlaylistTracks api platform playlistId) w).1.
Proof.
  unfold getPlaylistTracks. rewrite exec_bind, exec_getAuthToken.
  repeat case_decide; try (apply frame_call; reflexivity).
  apply frame_refl.
Qed.

Lemma frame_createPlaylist (platform : string) (d : PlaylistData)
    (w : World E) :
  frame w (exec (createPlaylist api platform d) w).1.
Proof.
  unfold createPlaylist. rewrite exec_bind, exec_getAuthToken.
  repeat case_decide; try (apply frame_call; reflexivity).
  apply frame_refl.
Qed.

(** The matching loop never throws.  It returns one result for each track
    left, in the order of the tracks, each recording the outcome of the
    search of its track; and it touches neither the storage nor the
    target playlist. *)
Lemma search_loop_spec (platform : string) (token : option TokenValue)
    (n : nat) (rest : list Track) :
  forall (i : nat) (results : list MatchResult) (w : World E),
  exists w' rs,
    exec (search_loop api platform token n i rest results) w =
    (w', Ok (results ++ rs))
    /\ Forall3 records rest
         (search_outcomes api platform token rest (ext w)).1 rs
    /\ ext w' = (search_outcomes api platform token rest (ext w)).2
    /\ frame w w'.
Proof.
  induction rest as [|track rest IH]; intros i results w.
  - exists w, []. simpl. rewrite app_nil_r.
    repeat split; constructor.
  - simpl search_loop. simpl search_outcomes.
    rewrite exec_bind, exec_try_catch, exec_bind, exec_call.
    destruct (searchTrack api platform token track (ext w)) as [o e'].
    simpl.
    set (w1 := mkWorld (ts w) (storage w) e'
                 (log w ++ [EvSearch platform track])).
    assert (Hw1 : frame w w1).
    { split; [reflexivity |]. subst w1; simpl.
      rewrite add_calls_app. apply app_nil_r. }
    destruct (search_outcomes api platform token rest e') as [os e'']
      eqn:Hos.
    destruct o as [searchResult|error];
      rewrite exec_ret, exec_bind, exec_updateProgress;
      match goal with
      | |- context [exec (search_loop _ _ _ _ ?j _ (results ++ [?r])) ?w2] =>
          destruct (IH j (results ++ [r]) w2)
            as (w' & rs & Hexec & Hrec & Hext & [Hs Ha]);
          exists w', (r :: rs)
      end;
      simpl in Hrec, Hext; rewrite Hos in Hrec, Hext;
      rewrite Hexec, <- app_assoc;
      (split; [reflexivity |]);
      (split; [constructor; [|exact Hrec] |]);
      try (split; [exact Hext |]);
      try (split; [exact Hs |];
           rewrite Ha; unfold add_log; simpl;
           rewrite add_calls_app, app_nil_r; apply Hw1).
    + destruct searchResult; constructor.
    + constructor.
Qed.

Lemma searchTracksOnPlatform_spec (platform : string) (tracks : list Track)
    (w : World E) :
  exists w' results,
    exec (searchTracksOnPlatform api platform tracks) w = (w', Ok results)
    /\ Forall3 records tracks
         (search_outcomes api platform (current_token api platform w) tracks
            (ext w)).1
         results
    /\ frame w w'.
Proof.
  unfold searchTracksOnPlatform. rewrite exec_bind, exec_getAuthToken.
  destruct (search_loop_spec platform (current_token api platform w)
              (length tracks) tracks 0 [] w)
    as (w' & rs & Hexec & Hrec & _ & Hfr).
  exists w', rs. auto.
Qed.

Lemma records_original (tracks : list Track)
    (os : list (Outcome (option Track))) (rs : list MatchResult) :
  Forall3 records tracks os rs -> original <$> rs = tracks.
Proof.
  induction 1 as [|t o r ts os' rs' Hr _ IH]; [reflexivity |].
  rewrite fmap_cons, IH. destruct Hr; reflexivity.
Qed.

Lemma records_valid_match (t : Track) (o : Outcome (option Track))
    (r : MatchResult) :
  records t o r -> valid_match r = found r.
Proof. destruct 1; reflexivity. Qed.

Lemma records_filter_valid (tracks : list Track)
    (os : list (Outcome (option Track))) (rs : list MatchResult) :
  Forall3 records tracks os rs ->
  filter (fun t => valid_match t = true) rs =
  filter (fun t => found t = true) rs.
Proof.
  induction 1 as [|t o r ts os' rs' Hr _ IH]; [reflexivity |].
  rewrite !filter_cons, IH, (records_valid_match _ _ _ Hr). reflexivity.
Qed.

(** As many results are found as searches returned a track. *)
Lemma records_found_count (tracks : list Track)
    (os : list (Outcome (option Track))) (rs : list MatchResult) :
  Forall3 records tracks os rs ->
  length (filter (fun t => found t = true) rs) =
  length (filter (fun o => found_outcome o = true) os).
Proof.
  induction 1 as [|t o r ts os' rs' Hr _ IH]; [reflexivity |].
  rewrite !filter_cons.
  destruct Hr as [m| |e]; simpl; rewrite IH; reflexivity.
Qed.

(** The insertion makes one call of the function of the platform, with
    all the valid results, when the platform is known, and none
    otherwise; it does not touch the storage. *)
Lemma addTracksToPlaylist_spec (platform playlistId : string)
    (tracks : list MatchResult) (w : World E) :
  let res := exec (addTracksToPlaylist api platform playlistId tracks) w in
  storage res.1 = storage w
  /\ add_calls (log res.1) =
     add_calls (log w) ++
     (if supported platform
      then [(platform, playlistId,
             filter (fun t => valid_match t = true) tracks)]
      else [])
  /\ (supported platform = false -> exists msg, res.2 = Raise msg).
Proof.
  unfold addTracksToPlaylist.
  rewrite exec_bind, exec_getAuthToken.
  repeat case_decide; subst;
    try (rewrite exec_call; cbn [fst snd log storage];
         rewrite add_calls_app;
         split; [reflexivity | split; [reflexivity | discriminate]]).
  unfold supported. rewrite !bool_decide_eq_false_2 by assumption.
  rewrite exec_throw, app_nil_r. cbn [fst snd orb].
  split; [reflexivity | split; [reflexivity | eauto]].
Qed.

(** A run of the [try] block that reaches its end: the source tracks were
    fetched, each was searched in turn, the target playlist was created,
    one call added the valid results to it, and one record was pushed on
    the history. *)
Lemma performTransfer_try_complete (transferData : TransferData)
    (w w1 : World E) :
  exec (performTransfer_try api transferData) w = (w1, Ok tt) ->
  exists (wf : World E) (sourceTracks : list Track)
         (matchedTracks : list MatchResult) (targetPlaylist : Playlist)
         (now : Z),
    exec (getPlaylistTracks api (sourcePlatform transferData)
            (pl_id (sourcePlaylist transferData)))
      (add_log (EvProgress 10 "Fetching source playlist tracks...")
         (set_ts (progress_ts 10 "Fetching source playlist tracks...") w))
    = (wf, Ok sourceTracks)
    /\ Forall3 records sourceTracks
         (search_outcomes api (targetPlatform transferData)
            (current_token api (targetPlatform transferData) wf)
            sourceTracks (ext wf)).1
         matchedTracks
    /\ supported (targetPlatform transferData) = true
    /\ add_calls (log w1) =
       add_calls (log w) ++
       [(targetPlatform transferData, pl_id targetPlaylist,
         filter (fun t => valid_match t = true) matchedTracks)]
    /\ storage w1 =
       mkStorage (authTokens (storage w))
         (Some
            (push_history
               (mkTransferRecord (sourcePlaylist transferData)
                  (sourcePlatform transferData)
                  (targetPlatform transferData) targetPlaylist
                  (length (filter (fun t => found t = true) matchedTracks))
                  (length sourceTracks) now)
               (history_of w)))
    /\ progress (ts w1) = 100%float
    /\ message (ts w1) = Some "Transfer completed successfully!".
Proof.
  intros H. unfold performTransfer_try in H.
  rewrite exec_bind, exec_updateProgress in H.
  pose proof (frame_updateProgress 10 "Fetching source playlist tracks..." w)
    as F0.
  rewrite exec_bind in H.
  match type of H with
  | context [exec (getPlaylistTracks api ?p ?id) ?w0] =>
      pose proof (frame_getPlaylistTracks p id w0) as F1;
      destruct (exec (getPlaylistTracks api p id) w0)
        as [wf [sourceTracks|e]] eqn:Hfetch; [|discriminate H]
  end.
  cbn [fst] in F1.
  rewrite exec_bind, exec_updateProgress in H.
  rewrite exec_bind in H.
  match type of H with
  | context [exec (searchTracksOnPlatform api ?p ?l) ?w0] =>
      pose proof (frame_updateProgress 30
                    "Searching for tracks on target platform..." wf) as F2;
      destruct (searchTracksOnPlatform_spec p l w0)
        as (ws & matchedTracks & Hsearch & Hrec & F3)
  end.
  rewrite Hsearch in H.
  rewrite exec_bind, exec_updateProgress in H.
  pose proof (frame_updateProgress 60 "Creating target playlist..." ws)
    as F4.
  rewrite exec_bind in H.
  match type of H with
  | context [exec (createPlaylist api ?p ?d) ?w0] =>
      pose proof (frame_createPlaylist p d w0) as F5;
      destruct (exec (createPlaylist api p d) w0)
        as [wc [targetPlaylist|e]] eqn:Hcreate; [|discriminate H]
  end.
  cbn [fst] in F5.
  rewrite exec_bind, exec_updateProgress in H.
  pose proof (frame_updateProgress 80 "Adding tracks to target playlist..."
                wc) as F6.
  rewrite exec_bind in H.
  match type of H with
  | context [exec (addTracksToPlaylist api ?p ?id ?l) ?w0] =>
      pose proof (addTracksToPlaylist_spec p id l w0) as (Hst & Hadd & Hsup);
      destruct (exec (addTracksToPlaylist api p id l) w0)
        as [wa [[]|e]] eqn:Hins; [|discriminate H]
  end.
  cbn [fst snd] in Hst, Hadd, Hsup.
  rewrite exec_bind in H. unfold Date_now in H. rewrite exec_gets in H.
  rewrite exec_bind, exec_saveTransferHistory, exec_updateProgress in H.
  injection H as <-.
  pose proof (frame_trans _ _ _ F0 F1) as G1.
  pose proof (frame_trans _ _ _ G1 (frame_trans _ _ _ F2 F3)) as G2.
  pose proof (frame_trans _ _ _ G2 (frame_trans _ _ _ F4 F5)) as G3.
  pose proof (frame_trans _ _ _ G3 F6) as [Gs Ga].
  assert (Hsupp : supported (targetPlatform transferData) = true).
  { destruct (supported (targetPlatform transferData)); [reflexivity |].
    destruct (Hsup eq_refl) as [msg Hmsg]. discriminate Hmsg. }
  rewrite Hsupp in Hadd.
  exists wf, sourceTracks, matchedTracks, targetPlaylist,
    (date_now api (ext wa)).
  split; [reflexivity |]. split; [exact Hrec |]. split; [exact Hsupp |].
  split; [|split; [|split; reflexivity]].
  - rewrite <- Ga, <- Hadd. unfold add_log; cbn [log].
    rewrite add_calls_app. apply app_nil_r.
  - unfold history_of. rewrite <- Gs, <- Hst. reflexivity.
Qed.

Lemma exec_performTransfer (transferData : TransferData) (w : World E) :
  exec (performTransfer api transferData) w =
  match exec (performTransfer_try api transferData) w with
  | (w1, Ok _) => (set_ts finished_ts w1, Ok tt)
  | (w1, Raise error) =>
      (set_ts finished_ts
         (add_log
            (EvProgress (progress (ts w1)) ("Transfer failed: " +:+ error))
            (set_ts (failed_ts error) w1)),
       Ok tt)
  end.
Proof.
  unfold performTransfer. rewrite exec_try_finally, exec_try_catch.
  destruct (exec (performTransfer_try api transferData) w) as [w1 [[]|error]];
    reflexivity.
Qed.

Lemma finallyS_ends_idle {A} (s : Susp E A) :
  ends_idle (finallyS s (performTransfer_finally (E:=E))).
Proof.
  induction s as [w r|w k IH]; simpl.
  - constructor. reflexivity.
  - constructor. exact IH.
Qed.

End Phases.

(** ** The claims on matching and insertion *)

(** The shape of the result that records an outcome. *)
Lemma records_shape (t : Track) (o : Outcome (option Track))
    (r : MatchResult) :
  records t o r ->
  original r = t
  /\ (o = Ok None ->
      found r = false /\ error r = None /\ match_ r = Some None)
  /\ (is_Some (error r) <-> exists e, o = Raise e)
  /\ (forall e, o = Raise e -> error r = Some e /\ found r = false)
  /\ ((exists m, match_ r = Some (Some m)) <-> found r = true)
  /\ (found r = true <-> exists m, o = Ok (Some m)).
Proof.
  destruct 1 as [m| |e]; simpl;
    (split; [reflexivity |]);
    (split; [intros; try discriminate; auto |]);
    (split; [split; [intros [? ?]; try discriminate; eauto
                    | intros [? ?]; try discriminate; eauto] |]);
    (split; [intros ? [=]; subst; auto |]);
    (split; split; try (intros [? ?]; discriminate);
     try discriminate; eauto).
Qed.

(** C9.  [searchTracksOnPlatform] returns one result for each track, in
    order.  The result of a track whose search returned without raising
    and found nothing has [found = false], no [error], and [match] holds
    [null]; [error] is present exactly when the search itself failed, and
    it is then the message of the failure; [match] holds a track exactly
    when [found] is true, that is when the search returned one. *)
Theorem match_result_records_search_outcome {E} (api : ExternalApis E)
    (platform : string) (tracks : list Track) (w : World E) :
  exists w' results,
    exec (searchTracksOnPlatform api platform tracks) w = (w', Ok results)
    /\ Forall3
         (fun t o r =>
            original r = t
            /\ (o = Ok None ->
                found r = false /\ error r = None /\ match_ r = Some None)
            /\ (is_Some (error r) <-> exists e, o = Raise e)
            /\ (forall e, o = Raise e -> error r = Some e /\ found r = false)
            /\ ((exists m, match_ r = Some (Some m)) <-> found r = true)
            /\ (found r = true <-> exists m, o = Ok (Some m)))
         tracks
         (search_outcomes api platform (current_token api platform w) tracks
            (ext w)).1
         results.
Proof.
  destruct (searchTracksOnPlatform_spec api platform tracks w)
    as (w' & results & Hexec & Hrec & _).
  exists w', results. split; [exact Hexec |].
  apply (Forall3_impl _ _ _ _ _ Hrec). apply records_shape.
Qed.

Lemma match_result_records_search_outcome_witness :
  exists (w' : World Z) (results : list MatchResult),
    exec (searchTracksOnPlatform (demo_api three_tracks) "apple"
            three_tracks) demo_world = (w', Ok results)
    /\ length results = 3.
Proof.
  destruct (match_result_records_search_outcome (demo_api three_tracks)
              "apple" three_tracks demo_world)
    as (w' & results & Hexec & Hshape).
  exists w', results. split; [exact Hexec |].
  rewrite <- (Forall3_length_lr _ _ _ _ Hshape). reflexivity.
Defined.



(** C7.  A run of the transfer that reaches its end pushes exactly one
    record on the history: the history after the run is the history
    before it with the record in front, cut to fifty.  [totalTracks] of
    the record is the number of source tracks fetched, and
    [transferredTracks] is the number of results that are found among the
    results of the searches of these tracks, one result for each track,
    that is the number of these searches that returned a track; it is at
    most [totalTracks]. *)
Theorem completed_transfer_writes_one_record {E} (api : ExternalApis E)
    (transferData : TransferData) (w w1 : World E) :
  exec (performTransfer_try api transferData) w = (w1, Ok tt) ->
  exists (wf : World E) (sourceTracks : list Track)
         (matchedTracks : list MatchResult) (record : TransferRecord),
    exec (getPlaylistTracks api (sourcePlatform transferData)
            (pl_id (sourcePlaylist transferData)))
      (add_log (EvProgress 10 "Fetching source playlist tracks...")
         (set_ts (progress_ts 10 "Fetching source playlist tracks...") w))
    = (wf, Ok sourceTracks)
    /\ Forall3 records sourceTracks
         (search_outcomes api (targetPlatform transferData)
            (current_token api (targetPlatform transferData) wf)
            sourceTracks (ext wf)).1
         matchedTracks
    /\ original <$> matchedTracks = sourceTracks
    /\ exec (performTransfer api transferData) w =
       (set_ts finished_ts w1, Ok tt)
    /\ history_of (set_ts finished_ts w1) =
       take 50 (record :: history_of w)
    /\ rec_sourcePlaylist record = sourcePlaylist transferData
    /\ rec_sourcePlatform record = sourcePlatform transferData
    /\ rec_targetPlatform record = targetPlatform transferData
    /\ totalTracks record = length sourceTracks
    /\ transferredTracks record =
       length (filter (fun t => found t = true) matchedTracks)
    /\ transferredTracks record =
       length
         (filter (fun o => found_outcome o = true)
            (search_outcomes api (targetPlatform transferData)
               (current_token api (targetPlatform transferData) wf)
               sourceTracks (ext wf)).1)
    /\ 0 <= transferredTracks record <= totalTracks record.
Proof.
  intros Hrun.
  destruct (performTransfer_try_complete api transferData w w1 Hrun)
    as (wf & sourceTracks & matchedTracks & targetPlaylist & now
        & Hfetch & Hrec & _ & _ & Hst & _).
  eexists wf, sourceTracks, matchedTracks, _.
  split; [exact Hfetch |]. split; [exact Hrec |].
  split; [exact (records_original _ _ _ Hrec) |].
  split; [rewrite exec_performTransfer, Hrun; reflexivity |].
  split.
  { unfold history_of at 1. cbn [set_ts storage]. rewrite Hst.
    cbn [transferHistory default]. apply push_history_take. }
  cbn [rec_sourcePlaylist rec_sourcePlatform rec_targetPlatform totalTracks
       transferredTracks].
  repeat (split; [reflexivity |]).
  split; [exact (records_found_count _ _ _ Hrec) |].
  split; [lia |].
  rewrite (Forall3_length_lr _ _ _ _ Hrec). apply length_filter.
Qed.

Lemma completed_transfer_writes_one_record_witness :
  exec (performTransfer_try (demo_api three_tracks) demo_transfer)
    demo_world = (demo_completed, Ok tt)
  /\ exists record : TransferRecord,
       history_of (set_ts finished_ts demo_completed) =
       take 50 (record :: history_of demo_world)
       /\ 0 <= transferredTracks record <= totalTracks record.
Proof.
  assert (Hrun :
    exec (performTransfer_try (demo_api three_tracks) demo_transfer)
      demo_world = (demo_completed, Ok tt)) by (vm_compute; reflexivity).
  split; [exact Hrun |].
  destruct (completed_transfer_writes_one_record (demo_api three_tracks)
              demo_transfer demo_world demo_completed Hrun)
    as (wf & sourceTracks & matched & record & _ & _ & _ & _ & Hhist & _ & _
        & _ & _ & _ & _ & Hle).
  exists record. split; [exact Hhist | exact Hle].
Defined.

(** The scenario of the specification, evaluated: the tracks at positions
    1 and 3 are submitted, in that order, and the record counts 2 tracks
    transferred out of 3. *)
Example scenario_three_tracks_second_missing :
  (fun c : string * string * list MatchResult =>
     (fun r => track_position (original r)) <$> c.2)
    <$> add_calls (log demo_completed) = [[1; 3]]
  /\ (fun r => (transferredTracks r, totalTracks r))
       <$> history_of demo_completed = [(2, 3)].
Proof. vm_compute. split; reflexivity. Qed.

(** C8, the claim as stated fails: with five tracks that are all found
    and a batch size of two, the run makes one call with the five tracks,
    where the specification has three batches of sizes 2, 2 and 1. *)
Lemma inserts_in_batches_fails :
  ~ inserts_in_batches (demo_api five_tracks)
  /\ length <$> (add_calls (log batch_completed)).*2 = [5]
  /\ length <$> spec_batches 2 (concat (add_calls (log batch_completed)).*2)
     = [2; 2; 1].
Proof.
  split; [|split; vm_compute; reflexivity].
  intros H.
  assert (Hrun :
    exec (performTransfer_try (demo_api five_tracks) batch_transfer)
      demo_world = (batch_completed, Ok tt)) by (vm_compute; reflexivity).
  specialize (H batch_transfer demo_world batch_completed).
  assert (Hb : 0 < batchSize (options batch_transfer)) by (simpl; lia).
  specialize (H Hb eq_refl Hrun).
  apply (f_equal length) in H. vm_compute in H. discriminate H.
Qed.

(** C8, amended.  The insertion is not batched, and [options.batchSize] is
    not read: the transfer of a request does not depend on its options,
    and a run that reaches its end makes exactly one call that adds
    tracks.  The call carries all the results that are found among the
    results of the searches of the source tracks fetched, one result for
    each track, in the order of these tracks. *)
Theorem insertion_is_one_call {E} (api : ExternalApis E)
    (transferData : TransferData) (w w1 : World E) :
  exec (performTransfer_try api transferData) w = (w1, Ok tt) ->
  (forall options' : TransferOptions,
     performTransfer api
       (mkTransferData (sourcePlaylist transferData)
          (sourcePlatform transferData) (targetPlatform transferData)
          options')
     = performTransfer api transferData)
  /\ exists (wf : World E) (sourceTracks : list Track)
            (matchedTracks : list MatchResult) (targetPlaylist : Playlist),
       exec (getPlaylistTracks api (sourcePlatform transferData)
               (pl_id (sourcePlaylist transferData)))
         (add_log (EvProgress 10 "Fetching source playlist tracks...")
            (set_ts (progress_ts 10 "Fetching source playlist tracks...")
               w))
       = (wf, Ok sourceTracks)
       /\ Forall3 records sourceTracks
            (search_outcomes api (targetPlatform transferData)
               (current_token api (targetPlatform transferData) wf)
               sourceTracks (ext wf)).1
            matchedTracks
       /\ original <$> matchedTracks = sourceTracks
       /\ add_calls (log w1) =
          add_calls (log w) ++
          [(targetPlatform transferData, pl_id targetPlaylist,
            filter (fun t => found t = true) matchedTracks)]
       /\ original <$> filter (fun t => found t = true) matchedTracks
          `sublist_of` sourceTracks
       /\ length (add_calls (log w1)) = S (length (add_calls (log w))).
Proof.
  intros Hrun. split; [reflexivity |].
  destruct (performTransfer_try_complete api transferData w w1 Hrun)
    as (wf & sourceTracks & matchedTracks & targetPlaylist & now
        & Hfetch & Hrec & _ & Hadd & _).
  exists wf, sourceTracks, matchedTracks, targetPlaylist.
  split; [exact Hfetch |]. split; [exact Hrec |].
  pose proof (records_original _ _ _ Hrec) as Horig.
  split; [exact Horig |].
  rewrite Hadd, (records_filter_valid _ _ _ Hrec).
  split; [reflexivity |]. split.
  - rewrite <- Horig. apply fmap_sublist. apply sublist_filter.
  - rewrite length_app. simpl. lia.
Qed.

Lemma insertion_is_one_call_witness :
  exec (performTransfer_try (demo_api five_tracks) batch_transfer)
    demo_world = (batch_completed, Ok tt)
  /\ length (add_calls (log batch_completed)) =
     S (length (add_calls (log demo_world))).
Proof.
  assert (Hrun :
    exec (performTransfer_try (demo_api five_tracks) batch_transfer)
      demo_world = (batch_completed, Ok tt)) by (vm_compute; reflexivity).
  split; [exact Hrun |].
  destruct (insertion_is_one_call (demo_api five_tracks) batch_transfer
              demo_world batch_completed Hrun)
    as (_ & wf & sourceTracks & matched & target & _ & _ & _ & _ & _
        & Hlen).
  exact Hlen.
Defined.

(** ** The end of a transfer *)

Section EndOfTransfer.
Context {E : Type} (api : ExternalApis E).

(** What [handleStartTransfer] starts when no transfer is running. *)
Lemma handleStartTransfer_spawns (transferData : TransferData)
    (w : World E) :
  isTransferring (ts w) = false ->
  handleStartTransfer api transferData w =
  match
    performTransfer api transferData
      (add_log (EvResponse (RespSuccess "Transfer started"))
         (set_ts (fun st =>
            mkTransferState true (Some transferData) 0 [] (message st)) w))
  with
  | Done w' r => Done w' (Ok (Some (Settled r)))
  | Pause w' k => Done w' (Ok (Some (Pending k)))
  end.
Proof.
  intros Hidle. unfold handleStartTransfer, try_catch, bind, gets.
  cbn [bindS catchS]. rewrite Hidle. cbn [bindS catchS ret modify sendResponse].
  unfold call_async.
  match goal with
  | |- context [performTransfer api transferData ?w0] =>
      destruct (performTransfer api transferData w0)
  end; reflexivity.
Qed.

Lemma performTransfer_ends_idle (transferData : TransferData)
    (w : World E) :
  ends_idle (performTransfer api transferData w).
Proof. apply finallyS_ends_idle. Qed.

Lemma ends_idle_resume {A} (w : World E) (k : World E -> Susp E A) :
  ends_idle (Pause w k) -> forall w', ends_idle (k w').
Proof. inversion 1; assumption. Qed.

Lemma ends_idle_done_flag {A} (w : World E) (r : Outcome A) :
  ends_idle (Done w r) -> isTransferring (ts w) = false.
Proof. inversion 1; assumption. Qed.

(** The invariant of the event loop: whatever the turns, every suspended
    transfer will end not transferring. *)
Lemma turn_tasks_end_idle (sys : System) (t : Turn) :
  tasks_end_idle sys -> tasks_end_idle (turn api sys t).
Proof.
  unfold tasks_end_idle. intros Hinv. destruct t as [m|i]; simpl.
  - unfold deliver. destruct m as [transferData| |]; simpl.
    + destruct (isTransferring (ts (world sys))) eqn:Hflag.
      * rewrite handleStartTransfer_busy by exact Hflag. exact Hinv.
      * rewrite handleStartTransfer_spawns by exact Hflag.
        match goal with
        | |- context [performTransfer api transferData ?w0] =>
            pose proof (performTransfer_ends_idle transferData w0) as Hend;
            destruct (performTransfer api transferData w0) as [w' r|w' k]
        end; simpl; [exact Hinv |].
        apply Forall_app. split; [exact Hinv |].
        constructor; [|constructor]. exact (ends_idle_resume _ _ Hend).
    + exact Hinv.
    + exact Hinv.
  - unfold resume. destruct (tasks sys !! i) as [k|] eqn:Hk; [|exact Hinv].
    pose proof (Forall_lookup_1 _ _ _ _ Hinv Hk (world sys)) as Hend.
    destruct (k (world sys)) as [w' r|w' k']; simpl.
    + apply Forall_delete. exact Hinv.
    + apply Forall_insert; [exact Hinv |].
      exact (ends_idle_resume _ _ Hend).
Qed.

Lemma run_turns_tasks_end_idle (schedule : list Turn) (sys : System) :
  tasks_end_idle sys -> tasks_end_idle (run_turns api sys schedule).
Proof.
  revert sys. induction schedule as [|t schedule IH]; intros sys Hinv;
    [exact Hinv |].
  apply IH, turn_tasks_end_idle, Hinv.
Qed.

(** When a turn ends a transfer, the state is not transferring. *)
Lemma resume_end_is_idle (sys : System) (i : nat)
    (k : World E -> Susp E unit) (w : World E) (r : Outcome unit) :
  tasks_end_idle sys ->
  tasks sys !! i = Some k ->
  k (world sys) = Done w r ->
  world (resume i sys) = w /\ isTransferring (ts w) = false.
Proof.
  intros Hinv Hk Hdone.
  pose proof (Forall_lookup_1 _ _ _ _ Hinv Hk (world sys)) as Hend.
  unfold resume. rewrite Hk, Hdone in *. split; [reflexivity |].
  exact (ends_idle_done_flag _ _ Hend).
Qed.

End EndOfTransfer.

(** C10.  Whatever the platform functions do, [performTransfer] ends, it
    ends without an exception, and the state is not transferring then: a
    [startTransfer] that follows is accepted.  This holds as well when
    other handlers have changed the world while the transfer was
    suspended. *)
Theorem performTransfer_always_ends_idle {E} (api : ExternalApis E)
    (transferData : TransferData) (w : World E) :
  let res := exec (performTransfer api transferData) w in
  res.2 = Ok tt
  /\ isTransferring (ts res.1) = false
  /\ (forall next : TransferData,
        exists k,
          exec (handleStartTransfer api next) res.1 =
          (started_world next res.1, Ok (Some (Pending k))))
  /\ ends_idle (performTransfer api transferData w).
Proof.
  intros res.
  assert (Hres : res.2 = Ok tt /\ isTransferring (ts res.1) = false).
  { subst res. rewrite exec_performTransfer.
    destruct (exec (performTransfer_try api transferData) w)
      as [w1 [[]|error]]; split; reflexivity. }
  destruct Hres as [Hok Hidle].
  split; [exact Hok |]. split; [exact Hidle |]. split.
  - intros next.
    destruct (handleStartTransfer_idle api next res.1 Hidle) as [k Hk].
    exists k. unfold exec. rewrite Hk. reflexivity.
  - apply performTransfer_ends_idle.
Qed.

(** ** Cancellation *)

Section Cancel.
Context {E : Type}.

(** [handleCancelTransfer] resets the state and answers; it leaves the
    errors, the storage and the outside world as they are. *)
Lemma exec_handleCancelTransfer (w : World E) :
  exec handleCancelTransfer w =
  (add_log (EvResponse (RespSuccess "Transfer cancelled"))
     (set_ts (fun st =>
        mkTransferState false None 0 (errors st) (message st)) w),
   Ok None).
Proof. reflexivity. Qed.

End Cancel.

(** ** A transfer does not look at [transferState] *)

Section Respects.
Context {E : Type} (api : ExternalApis E).

Lemma agree_refl (w : World E) : agree w w.
Proof. repeat split. Qed.

Lemma agree_sym (w1 w2 : World E) : agree w1 w2 -> agree w2 w1.
Proof. intros (? & ? & ?). repeat split; congruence. Qed.

Lemma agree_trans (w1 w2 w3 : World E) :
  agree w1 w2 -> agree w2 w3 -> agree w1 w3.
Proof. intros (? & ? & ?) (? & ? & ?). repeat split; congruence. Qed.

Lemma agree_set_ts (f g : TransferState -> TransferState) (w1 w2 : World E) :
  agree w1 w2 -> agree (set_ts f w1) (set_ts g w2).
Proof. intros H. exact H. Qed.

Lemma agree_add_log (ev : Event) (w1 w2 : World E) :
  agree w1 w2 -> agree (add_log ev w1) (add_log ev w2).
Proof.
  intros (Hs & He & Hl). repeat split; [exact Hs | exact He |].
  unfold add_log, platform_calls in *; simpl.
  rewrite !filter_app, Hl. reflexivity.
Qed.

(** What is said to the popup does not count. *)
Lemma agree_add_log_l (ev : Event) (w1 w2 : World E) :
  is_call ev = false -> agree w1 w2 -> agree (add_log ev w1) w2.
Proof.
  intros Hev (Hs & He & Hl). repeat split; [exact Hs | exact He |].
  unfold add_log, platform_calls in *; simpl.
  rewrite filter_app, Hl, filter_cons_False, filter_nil, app_nil_r;
    [reflexivity |].
  rewrite Hev. discriminate.
Qed.

Lemma respects_ret {A} (a : A) : respects (ret a : Prog E A).
Proof. intros w1 w2 H. constructor. exact H. Qed.

Lemma respects_throw {A} (e : string) : respects (throw e : Prog E A).
Proof. intros w1 w2 H. constructor. exact H. Qed.

Lemma sim_bindS {A B} (s1 s2 : Susp E A) (f : A -> Prog E B) :
  sim s1 s2 -> (forall a, respects (f a)) -> sim (bindS s1 f) (bindS s2 f).
Proof.
  intros Hsim Hf.
  induction Hsim as [w1 w2 [a|e] Hw|w1 w2 k1 k2 Hw _ IH]; simpl.
  - apply Hf, Hw.
  - constructor. exact Hw.
  - constructor; [exact Hw | exact IH].
Qed.

Lemma respects_bind {A B} (m : Prog E A) (f : A -> Prog E B) :
  respects m -> (forall a, respects (f a)) -> respects (bind m f).
Proof. intros Hm Hf w1 w2 H. apply sim_bindS; [apply Hm, H | exact Hf]. Qed.

Lemma sim_catchS {A} (s1 s2 : Susp E A) (h : string -> Prog E A) :
  sim s1 s2 -> (forall e, respects (h e)) -> sim (catchS s1 h) (catchS s2 h).
Proof.
  intros Hsim Hh.
  induction Hsim as [w1 w2 [a|e] Hw|w1 w2 k1 k2 Hw _ IH]; simpl.
  - constructor. exact Hw.
  - apply Hh, Hw.
  - constructor; [exact Hw | exact IH].
Qed.

Lemma respects_try_catch {A} (m : Prog E A) (h : string -> Prog E A) :
  respects m -> (forall e, respects (h e)) -> respects (try_catch m h).
Proof. intros Hm Hh w1 w2 H. apply sim_catchS; [apply Hm, H | exact Hh]. Qed.

Lemma sim_finallyS {A} (s1 s2 : Susp E A) (fin : Prog E unit) :
  sim s1 s2 -> respects fin -> sim (finallyS s1 fin) (finallyS s2 fin).
Proof.
  intros Hsim Hfin.
  induction Hsim as [w1 w2 r Hw|w1 w2 k1 k2 Hw _ IH]; simpl.
  - apply sim_bindS; [apply Hfin, Hw |].
    intros _ w1' w2' H. constructor. exact H.
  - constructor; [exact Hw | exact IH].
Qed.

Lemma respects_try_finally {A} (m : Prog E A) (fin : Prog E unit) :
  respects m -> respects fin -> respects (try_finally m fin).
Proof.
  intros Hm Hfin w1 w2 H. apply sim_finallyS; [apply Hm, H | exact Hfin].
Qed.

Lemma respects_modify (f : World E -> World E) :
  (forall w1 w2, agree w1 w2 -> agree (f w1) (f w2)) -> respects (modify f).
Proof. intros Hf w1 w2 H. constructor. apply Hf, H. Qed.

Lemma respects_gets {A} (f : World E -> A) :
  (forall w1 w2, agree w1 w2 -> f w1 = f w2) -> respects (gets f).
Proof.
  intros Hf w1 w2 H. unfold gets. rewrite (Hf w1 w2 H).
  constructor. exact H.
Qed.

Lemma respects_await {A} (act : World E -> World E * Outcome A) :
  (forall w1 w2, agree w1 w2 ->
     agree (act w1).1 (act w2).1 /\ (act w1).2 = (act w2).2) ->
  respects (await act).
Proof.
  intros Hact w1 w2 H. constructor; [exact H |].
  intros w1' w2' H'. destruct (Hact w1' w2' H') as [Hw Hr].
  destruct (act w1') as [v1 r1], (act w2') as [v2 r2]; simpl in *.
  subst r2. constructor. exact Hw.
Qed.

Lemma respects_updateProgress (p : float) (msg : string) :
  respects (updateProgress (E:=E) p msg).
Proof.
  apply respects_bind; [|intros _]; apply respects_modify;
    intros w1 w2 H; [exact H | apply agree_add_log, H].
Qed.

Lemma respects_call {A} (ev : Event) (f : E -> Outcome A * E) :
  respects (call ev f).
Proof.
  apply respects_bind.
  - apply respects_modify. intros w1 w2 H. apply agree_add_log, H.
  - intros _. apply respects_await. intros w1 w2 (Hs & He & Hl).
    rewrite He. destruct (f (ext w2)) as [r e']. simpl.
    repeat split; assumption.
Qed.

Lemma respects_getAuthToken (platform : string) :
  respects (getAuthToken api platform).
Proof.
  apply respects_bind.
  - apply respects_await. intros w1 w2 H. split; [exact H |].
    simpl. destruct H as (-> & _). reflexivity.
  - intros result. cbv zeta.
    destruct (authTokens_get (default ∅ (authTokens result)) platform)
      as [token|]; [|apply respects_ret].
    apply respects_bind.
    + apply respects_gets. intros w1 w2 (_ & -> & _). reflexivity.
    + intros now. destruct (value_expired token now); apply respects_ret.
Qed.

Lemma respects_getPlaylistTracks (platform playlistId : string) :
  respects (getPlaylistTracks api platform playlistId).
Proof.
  apply respects_bind; [apply respects_getAuthToken |]. intros token.
  repeat case_decide; try apply respects_call. apply respects_throw.
Qed.

Lemma respects_createPlaylist (platform : string) (d : PlaylistData) :
  respects (createPlaylist api platform d).
Proof.
  apply respects_bind; [apply respects_getAuthToken |]. intros token.
  repeat case_decide; try apply respects_call. apply respects_throw.
Qed.

Lemma respects_addTracksToPlaylist (platform playlistId : string)
    (tracks : list MatchResult) :
  respects (addTracksToPlaylist api platform playlistId tracks).
Proof.
  apply respects_bind; [apply respects_getAuthToken |]. intros token.
  simpl. repeat case_decide; try apply respects_call. apply respects_throw.
Qed.

Lemma respects_search_loop (platform : string) (token : option TokenValue)
    (n : nat) (rest : list Track) :
  forall (i : nat) (results : list MatchResult),
    respects (search_loop api platform token n i rest results).
Proof.
  induction rest as [|track rest IH]; intros i results; simpl.
  - apply respects_ret.
  - apply respects_bind.
    + apply respects_try_catch.
      * apply respects_bind; [apply respects_call |].
        intros searchResult. apply respects_ret.
      * intros error. apply respects_ret.
    + intros results'.
      apply respects_bind; [apply respects_updateProgress |].
      intros _. apply IH.
Qed.

Lemma respects_searchTracksOnPlatform (platform : string)
    (tracks : list Track) :
  respects (searchTracksOnPlatform api platform tracks).
Proof.
  apply respects_bind; [apply respects_getAuthToken |]. intros token.
  apply respects_search_loop.
Qed.

Lemma respects_saveTransferHistory (r : TransferRecord) :
  respects (saveTransferHistory (E:=E) r).
Proof.
  apply respects_bind.
  - apply respects_await. intros w1 w2 H. split; [exact H |].
    simpl. destruct H as (-> & _). reflexivity.
  - intros result. apply respects_await. intros w1 w2 (Hs & He & Hl).
    unfold agree, set_storage; simpl. rewrite Hs.
    repeat split; assumption.
Qed.

Lemma respects_performTransfer_try (transferData : TransferData) :
  respects (performTransfer_try api transferData).
Proof.
  unfold performTransfer_try.
  apply respects_bind; [apply respects_updateProgress | intros _].
  apply respects_bind; [apply respects_getPlaylistTracks | intros tracks].
  apply respects_bind; [apply respects_updateProgress | intros _].
  apply respects_bind; [apply respects_searchTracksOnPlatform | intros ms].
  apply respects_bind; [apply respects_updateProgress | intros _].
  apply respects_bind; [apply respects_createPlaylist | intros target].
  apply respects_bind; [apply respects_updateProgress | intros _].
  apply respects_bind; [apply respects_addTracksToPlaylist | intros _].
  apply respects_bind.
  { apply respects_gets. intros w1 w2 (_ & -> & _). reflexivity. }
  intros now.
  apply respects_bind; [apply respects_saveTransferHistory | intros _].
  apply respects_updateProgress.
Qed.

(** The [catch] block reads the progress, but only to repeat it to the
    popup. *)
Lemma respects_performTransfer_catch (error : string) :
  respects (performTransfer_catch (E:=E) error).
Proof.
  intros w1 w2 H. unfold performTransfer_catch, bind, modify, gets,
    updateProgress; simpl.
  constructor.
  apply agree_add_log_l; [reflexivity |]. apply agree_sym.
  apply agree_add_log_l; [reflexivity |]. apply agree_sym. exact H.
Qed.

Theorem respects_performTransfer (transferData : TransferData) :
  respects (performTransfer api transferData).
Proof.
  apply respects_try_finally.
  - apply respects_try_catch; [apply respects_performTransfer_try |].
    apply respects_performTransfer_catch.
  - apply respects_modify. intros w1 w2 H. exact H.
Qed.

End Respects.

(** ** Cancellation does not reach the transfer *)

Section CancelIgnored.
Context {E : Type} (api : ExternalApis E).

Lemma sim_resume {A} (w1 w2 : World E) (k1 k2 : World E -> Susp E A) :
  sim (Pause w1 k1) (Pause w2 k2) ->
  forall w1' w2', agree w1' w2' -> sim (k1 w1') (k2 w2').
Proof. inversion 1; assumption. Qed.

Lemma resume_sys_sim (i : nat) (sys1 sys2 : System (E:=E)) :
  sys_sim sys1 sys2 -> sys_sim (resume i sys1) (resume i sys2).
Proof.
  intros [Hw Ht]. unfold resume.
  pose proof (proj1 (Forall2_lookup _ _ _) Ht i) as Hi.
  destruct Hi as [k1 k2 Hk|]; [|split; assumption].
  pose proof (Hk _ _ Hw) as Hsim.
  inversion Hsim as [v1 v2 r Hv|v1 v2 k1' k2' Hv Hk']; subst; split; simpl.
  - exact Hv.
  - apply Forall2_delete, Ht.
  - exact Hv.
  - apply Forall2_insert; [exact Ht | exact Hk'].
Qed.

(** A message that starts nothing changes the state and answers the
    popup, and that is all. *)
Lemma deliver_quiet_sys_sim (m : Message) (sys1 sys2 : System (E:=E)) :
  starts_nothing (Deliver m) = true ->
  sys_sim sys1 sys2 -> sys_sim (deliver api m sys1) sys2.
Proof.
  intros Hm [Hw Ht]. destruct m as [transferData| |]; [discriminate Hm | |];
    split; try exact Ht; unfold deliver; simpl;
    (apply agree_add_log_l; [reflexivity | exact Hw]).
Qed.

Lemma run_turns_sys_sim (schedule : list Turn) (sys1 sys2 : System (E:=E)) :
  Forall (fun t => starts_nothing t = true) schedule ->
  sys_sim sys1 sys2 ->
  sys_sim (run_turns api sys1 schedule)
    (run_turns api sys2 (filter (fun t => is_resume t = true) schedule)).
Proof.
  intros Hquiet. revert sys1 sys2.
  induction Hquiet as [|t schedule Ht _ IH]; intros sys1 sys2 Hsim;
    [exact Hsim |].
  destruct t as [m|i].
  - rewrite filter_cons_False by (simpl; discriminate).
    apply IH. apply deliver_quiet_sys_sim; assumption.
  - rewrite filter_cons_True by reflexivity.
    apply IH. apply resume_sys_sim, Hsim.
Qed.

(** The system just after a [startTransfer]. *)
Lemma started_sys_sim (transferData : TransferData) (sys : System (E:=E)) :
  tasks sys = [] ->
  sys_sim (deliver api (MsgStartTransfer transferData) sys)
    (deliver api (MsgStartTransfer transferData) sys).
Proof.
  intros Hnone. split; [apply agree_refl |].
  unfold deliver. simpl onMessage. rewrite Hnone.
  destruct (isTransferring (ts (world sys))) eqn:Hflag.
  - rewrite handleStartTransfer_busy by exact Hflag. constructor.
  - rewrite handleStartTransfer_spawns by exact Hflag.
    match goal with
    | |- context [performTransfer api transferData ?w0] =>
        pose proof (respects_performTransfer api transferData w0 w0
                      (agree_refl w0)) as Hsim;
        destruct (performTransfer api transferData w0) as [w' r|w' k]
    end; simpl; [constructor |].
    constructor; [|constructor]. exact (sim_resume _ _ _ _ Hsim).
Qed.

(** Whatever the request and the platform functions: from the start of a
    transfer, the cancellations and the requests of status delivered
    between its suspensions change neither what it calls on the
    platforms, nor what it does to the outside world and to the storage,
    nor when it ends. *)
Theorem cancel_does_not_reach_transfer (transferData : TransferData)
    (w : World E) (schedule : list Turn) :
  Forall (fun t => starts_nothing t = true) schedule ->
  let started :=
    deliver api (MsgStartTransfer transferData) (mkSystem w []) in
  let with_cancel := run_turns api started schedule in
  let without :=
    run_turns api started (filter (fun t => is_resume t = true) schedule) in
  platform_calls (log (world with_cancel)) =
  platform_calls (log (world without))
  /\ storage (world with_cancel) = storage (world without)
  /\ ext (world with_cancel) = ext (world without)
  /\ length (tasks with_cancel) = length (tasks without).
Proof.
  intros Hquiet started with_cancel without.
  destruct (run_turns_sys_sim schedule started started Hquiet
              (started_sys_sim transferData (mkSystem w []) eq_refl))
    as [(Hs & He & Hl) Ht].
  split; [exact Hl |]. split; [exact Hs |]. split; [exact He |].
  exact (Forall2_length _ _ _ Ht).
Qed.

End CancelIgnored.

(** C3 (the code departs from the claim).  The popup cancels while the
    transfer of the scenario is in its matching phase, at progress 30.
    The handler answers "Transfer cancelled" and resets the state, but
    the transfer is not told: resumed, it begins the search of the third
    track, creates the target playlist, adds the tracks, writes the
    history, and ends as completed with progress 100. *)
Theorem cancel_during_matching_does_not_stop_transfer :
  length (tasks cancel_before) = 1
  /\ isTransferring (ts (world cancel_before)) = true
  /\ message (ts (world cancel_before)) = Some "Searching: Alpha"
  /\ progress (ts (world cancel_before)) = 30%float
  /\ track_name <$> search_calls (log (world cancel_before)) =
     ["Alpha"; "missing"]
  /\ responses (log (world cancel_requested)) =
     [RespSuccess "Transfer started"; RespSuccess "Transfer cancelled"]
  /\ isTransferring (ts (world cancel_requested)) = false
  /\ progress (ts (world cancel_requested)) = 0%float
  /\ length (tasks cancel_requested) = 1
  /\ length (tasks cancel_final) = 0
  /\ track_name <$> search_calls (log (world cancel_final)) =
     ["Alpha"; "missing"; "Gamma"]
  /\ length (add_calls (log (world cancel_final))) = 1
  /\ length (history_of (world cancel_final)) = 1
  /\ message (ts (world cancel_final)) =
     Some "Transfer completed successfully!"
  /\ progress (ts (world cancel_final)) = 100%float
  /\ PrimFloat.leb (progress (ts (world cancel_final)))
       (progress (ts (world cancel_before))) = false.
Proof. vm_compute. repeat split. Qed.

(** ** How a transfer ends *)

Section TransferOutcome.
Context {E : Type} (api : ExternalApis E).

Lemma platform_calls_app (l1 l2 : list Event) :
  platform_calls (l1 ++ l2) = platform_calls l1 ++ platform_calls l2.
Proof. apply filter_app. Qed.

Lemma progress_events_app (l1 l2 : list Event) :
  progress_events (l1 ++ l2) = progress_events l1 ++ progress_events l2.
Proof. apply omap_app. Qed.


Lemma effect_refl (w : World E) : effect w w [].
Proof. unfold effect. rewrite app_nil_r. repeat split. Qed.

Lemma effect_trans (w1 w2 w3 : World E) (c1 c2 : list Event) :
  effect w1 w2 c1 -> effect w2 w3 c2 -> effect w1 w3 (c1 ++ c2).
Proof.
  intros (Hs1 & He1 & Hi1 & Hc1 & Hl1) (Hs2 & He2 & Hi2 & Hc2 & Hl2).
  unfold effect. rewrite Hl2, Hl1, app_assoc.
  repeat split; congruence.
Qed.

Lemma effect_progress_ts (w w' : World E) (c : list Event) (p : float)
    (msg : string) :
  effect w w' c -> progress_ts p msg (ts w') = progress_ts p msg (ts w).
Proof.
  intros (_ & He & Hi & Hc & _). unfold progress_ts. rewrite He, Hi, Hc.
  reflexivity.
Qed.

Lemma effect_updateProgress (p : float) (msg : string) (w : World E) :
  effect w (add_log (EvProgress p msg) (set_ts (progress_ts p msg) w)) [].
Proof.
  unfold effect, add_log; simpl. rewrite platform_calls_app.
  repeat split.
Qed.

Lemma effect_call {A} (ev : Event) (f : E -> Outcome A * E) (w : World E) :
  is_call ev = true ->
  effect w (exec (call ev f) w).1 [ev] /\ ts (exec (call ev f) w).1 = ts w.
Proof.
  intros Hev. rewrite exec_call. unfold effect; simpl.
  rewrite platform_calls_app. unfold platform_calls at 2.
  rewrite filter_cons_True by exact Hev. repeat split.
Qed.

Lemma supported_false (platform : string) :
  platform <> "spotify" -> platform <> "apple" -> platform <> "youtube" ->
  supported platform = false.
Proof.
  intros H1 H2 H3. unfold supported.
  rewrite !bool_decide_eq_false_2 by assumption. reflexivity.
Qed.

(** A call of a platform function in a branch of a [switch] on a
    platform that is known. *)
Ltac call_effect_tac :=
  match goal with
  | |- context [exec (call ?ev ?f) ?w] =>
      let Heff := fresh "Heff" in
      let Hts := fresh "Hts" in
      destruct (effect_call ev f w eq_refl) as [Heff Hts];
      first
        [ split; [exact Heff | split; [exact Hts | discriminate]]
        | split; [exact Heff | exact Hts] ]
  end.

Lemma getPlaylistTracks_effect (platform playlistId : string)
    (w : World E) :
  let res := exec (getPlaylistTracks api platform playlistId) w in
  effect w res.1
    (if supported platform then [EvGetTracks platform playlistId] else [])
  /\ ts res.1 = ts w
  /\ (supported platform = false ->
      res.2 =
      Raise ("Platform " +:+ platform +:+ " not supported for track fetching")
      /\ ext res.1 = ext w).
Proof.
  unfold getPlaylistTracks. rewrite exec_bind, exec_getAuthToken.
  repeat case_decide; subst; try call_effect_tac.
  rewrite supported_false by assumption. rewrite exec_throw.
  split; [apply effect_refl | repeat split].
Qed.

Lemma createPlaylist_effect (platform : string) (d : PlaylistData)
    (w : World E) :
  let res := exec (createPlaylist api platform d) w in
  effect w res.1 (if supported platform then [EvCreate platform d] else [])
  /\ ts res.1 = ts w
  /\ (supported platform = false ->
      res.2 =
      Raise ("Platform " +:+ platform
             +:+ " not supported for playlist creation")
      /\ ext res.1 = ext w).
Proof.
  unfold createPlaylist. rewrite exec_bind, exec_getAuthToken.
  repeat case_decide; subst; try call_effect_tac.
  rewrite supported_false by assumption. rewrite exec_throw.
  split; [apply effect_refl | repeat split].
Qed.

Lemma addTracksToPlaylist_effect (platform playlistId : string)
    (tracks : list MatchResult) (w : World E) :
  let res := exec (addTracksToPlaylist api platform playlistId tracks) w in
  effect w res.1
    (if supported platform
     then [EvAddTracks platform playlistId
             (filter (fun t => valid_match t = true) tracks)]
     else [])
  /\ ts res.1 = ts w.
Proof.
  unfold addTracksToPlaylist. rewrite exec_bind, exec_getAuthToken.
  cbv zeta.
  repeat case_decide; subst; try call_effect_tac.
  rewrite supported_false by assumption. rewrite exec_throw.
  split; [apply effect_refl | reflexivity].
Qed.

(** The matching loop searches each track left once, in order, and
    notifies the popup once for each. *)
Lemma search_loop_effect (platform : string) (token : option TokenValue)
    (n : nat) (rest : list Track) :
  forall (i : nat) (results : list MatchResult) (w : World E),
    let res := exec (search_loop api platform token n i rest results) w in
    effect w res.1 (EvSearch platform <$> rest)
    /\ search_calls (log res.1) = search_calls (log w) ++ rest
    /\ length (progress_events (log res.1)) =
       length (progress_events (log w)) + length rest.
Proof.
  induction rest as [|track rest IH]; intros i results w.
  - simpl. rewrite app_nil_r.
    split; [apply effect_refl | split; [reflexivity | lia]].
  - simpl search_loop.
    rewrite exec_bind, exec_try_catch, exec_bind.
    destruct (effect_call (EvSearch platform track)
                (searchTrack api platform token track) w eq_refl)
      as [Heff Hts].
    assert (Hlog :
      log (exec (call (EvSearch platform track)
                   (searchTrack api platform token track)) w).1 =
      log w ++ [EvSearch platform track])
      by (rewrite exec_call; reflexivity).
    destruct (exec (call (EvSearch platform track)
                      (searchTrack api platform token track)) w)
      as [w1 [searchResult|error]];
      cbn [fst] in Heff, Hts, Hlog;
      rewrite exec_ret, exec_bind, exec_updateProgress;
      match goal with
      | |- context [exec (search_loop _ _ _ _ ?j _ ?rs) ?w2] =>
          destruct (IH j rs w2) as (IHe & IHs & IHp);
          pose proof (effect_trans _ _ _ _ _ Heff
                        (effect_trans _ _ _ _ _
                           (effect_updateProgress _ _ w1) IHe)) as Hall
      end;
      (split; [exact Hall |]);
      (split;
       [rewrite IHs; unfold add_log, set_ts; cbn [log];
        rewrite search_calls_app, Hlog, search_calls_app, <- !app_assoc;
        reflexivity
       |rewrite IHp; unfold add_log, set_ts; cbn [log];
        rewrite progress_events_app, Hlog, progress_events_app, !length_app;
        simpl; lia]).
Qed.

Lemma searchTracksOnPlatform_effect (platform : string)
    (tracks : list Track) (w : World E) :
  let res := exec (searchTracksOnPlatform api platform tracks) w in
  effect w res.1 (EvSearch platform <$> tracks)
  /\ search_calls (log res.1) = search_calls (log w) ++ tracks
  /\ length (progress_events (log res.1)) =
     length (progress_events (log w)) + length tracks.
Proof.
  unfold searchTracksOnPlatform. rewrite exec_bind, exec_getAuthToken.
  apply search_loop_effect.
Qed.

(** The four ways in which the [try] block of [performTransfer] ends:
    the fetch of the source tracks fails, the creation of the target
    playlist fails, the insertion fails, or the block reaches its end.
    Each leaves the state at the progress of the phase, and the calls of
    the platform functions made up to it. *)
Lemma performTransfer_try_outcome (transferData : TransferData)
    (w : World E) :
  let src := sourcePlatform transferData in
  let tgt := targetPlatform transferData in
  let id := pl_id (sourcePlaylist transferData) in
  let d :=
    mkPlaylistData (pl_name (sourcePlaylist transferData))
      (pl_description (sourcePlaylist transferData)) in
  let fetched :=
    exec (getPlaylistTracks api src id)
      (add_log (EvProgress 10 "Fetching source playlist tracks...")
         (set_ts (progress_ts 10 "Fetching source playlist tracks...") w))
  in
  let res := exec (performTransfer_try api transferData) w in
  (exists e,
     res.2 = Raise e
     /\ fetched.2 = Raise e
     /\ storage res.1 = storage w
     /\ ts res.1 =
        progress_ts 10 "Fetching source playlist tracks..." (ts w)
     /\ platform_calls (log res.1) =
        platform_calls (log w)
        ++ (if supported src then [EvGetTracks src id] else [])
     /\ (supported src = false ->
         e = "Platform " +:+ src +:+ " not supported for track fetching"
         /\ ext res.1 = ext w))
  \/ (exists e sourceTracks,
        res.2 = Raise e
        /\ fetched.2 = Ok sourceTracks
        /\ storage res.1 = storage w
        /\ ts res.1 = progress_ts 60 "Creating target playlist..." (ts w)
        /\ platform_calls (log res.1) =
           platform_calls (log w)
           ++ [EvGetTracks src id] ++ (EvSearch tgt <$> sourceTracks)
           ++ (if supported tgt then [EvCreate tgt d] else [])
        /\ (supported tgt = false ->
            e = "Platform " +:+ tgt
                +:+ " not supported for playlist creation"))
  \/ (exists e sourceTracks targetPlaylist submitted,
        res.2 = Raise e
        /\ fetched.2 = Ok sourceTracks
        /\ supported tgt = true
        /\ storage res.1 = storage w
        /\ ts res.1 =
           progress_ts 80 "Adding tracks to target playlist..." (ts w)
        /\ platform_calls (log res.1) =
           platform_calls (log w)
           ++ transfer_calls transferData sourceTracks targetPlaylist
                submitted
        /\ exists matchedTracks,
             Forall3 records sourceTracks
               (search_outcomes api tgt (current_token api tgt fetched.1)
                  sourceTracks (ext fetched.1)).1
               matchedTracks
             /\ submitted = filter (fun t => found t = true) matchedTracks)
  \/ (exists sourceTracks targetPlaylist submitted,
        res.2 = Ok tt
        /\ fetched.2 = Ok sourceTracks
        /\ supported tgt = true
        /\ ts res.1 =
           progress_ts 100 "Transfer completed successfully!" (ts w)
        /\ platform_calls (log res.1) =
           platform_calls (log w)
           ++ transfer_calls transferData sourceTracks targetPlaylist
                submitted
        /\ exists matchedTracks,
             Forall3 records sourceTracks
               (search_outcomes api tgt (current_token api tgt fetched.1)
                  sourceTracks (ext fetched.1)).1
               matchedTracks
             /\ submitted = filter (fun t => found t = true) matchedTracks).
Proof.
  intros src tgt id d fetched res. subst res fetched.
  unfold performTransfer_try. fold src tgt id d.
  rewrite exec_bind, exec_updateProgress.
  pose proof (effect_updateProgress 10 "Fetching source playlist tracks..." w)
    as E0.
  rewrite exec_bind.
  match goal with
  | |- context [exec (getPlaylistTracks api src id) ?w0] =>
      destruct (getPlaylistTracks_effect src id w0) as (E1 & T1 & U1);
      destruct (exec (getPlaylistTracks api src id) w0)
        as [wf [sourceTracks|e]]
  end; cbn [fst snd] in E1, T1, U1.
  2: { (* the fetch fails *)
    left. exists e. cbn [fst snd].
    pose proof (effect_trans _ _ _ _ _ E0 E1) as (Hs & _ & _ & _ & Hl).
    split; [reflexivity |]. split; [reflexivity |].
    split; [exact Hs |]. split; [exact T1 |].
    split; [exact Hl |].
    intros Hsup. destruct (U1 Hsup) as [[= ->] Hext].
    split; [reflexivity | exact Hext]. }
  assert (Hsrc : supported src = true).
  { destruct (supported src); [reflexivity |].
    destruct (U1 eq_refl) as [Habs _]. discriminate Habs. }
  rewrite Hsrc in E1.
  pose proof (effect_trans _ _ _ _ _ E0 E1) as G1.
  rewrite exec_bind, exec_updateProgress.
  rewrite exec_bind.
  match goal with
  | |- context [exec (searchTracksOnPlatform api tgt sourceTracks) ?w0] =>
      pose proof (effect_updateProgress 30
                    "Searching for tracks on target platform..." wf) as E2;
      destruct (searchTracksOnPlatform_effect tgt sourceTracks w0)
        as (E3 & _ & _);
      destruct (searchTracksOnPlatform_spec api tgt sourceTracks w0)
        as (ws & matchedTracks & Hsearch & Hrec & _)
  end.
  rewrite Hsearch in *. cbn [fst] in E3.
  pose proof (effect_trans _ _ _ _ _ G1 (effect_trans _ _ _ _ _ E2 E3))
    as G2.
  cbn [app] in G2.
  rewrite exec_bind, exec_updateProgress.
  pose proof (effect_updateProgress 60 "Creating target playlist..." ws)
    as E4.
  rewrite exec_bind.
  match goal with
  | |- context [exec (createPlaylist api tgt ?d0) ?w0] =>
      destruct (createPlaylist_effect tgt d0 w0) as (E5 & T5 & U5);
      destruct (exec (createPlaylist api tgt d0) w0)
        as [wc [targetPlaylist|e]]
  end; cbn [fst snd] in E5, T5, U5.
  2: { (* the creation fails *)
    right; left. exists e, sourceTracks. cbn [fst snd].
    pose proof (effect_trans _ _ _ _ _ G2 (effect_trans _ _ _ _ _ E4 E5))
      as (Hs & _ & _ & _ & Hl).
    split; [reflexivity |]. split; [reflexivity |]. split; [exact Hs |].
    split.
    { rewrite T5. apply (effect_progress_ts _ _ _ _ _ G2). }
    split; [exact Hl |].
    intros Hsup. destruct (U5 Hsup) as [[= ->] _]. reflexivity. }
  assert (Htgt : supported tgt = true).
  { destruct (supported tgt); [reflexivity |].
    destruct (U5 eq_refl) as [Habs _]. discriminate Habs. }
  rewrite Htgt in E5.
  pose proof (effect_trans _ _ _ _ _ G2 (effect_trans _ _ _ _ _ E4 E5))
    as G3.
  cbn [app] in G3.
  rewrite exec_bind, exec_updateProgress.
  pose proof (effect_updateProgress 80 "Adding tracks to target playlist..."
                wc) as E6.
  rewrite exec_bind.
  match goal with
  | |- context [exec (addTracksToPlaylist api tgt ?pid ?l) ?w0] =>
      destruct (addTracksToPlaylist_effect tgt pid l w0) as (E7 & T7);
      destruct (exec (addTracksToPlaylist api tgt pid l) w0)
        as [wa [[]|e]]
  end; cbn [fst snd] in E7, T7; rewrite Htgt in E7;
    pose proof (effect_trans _ _ _ _ _ G3 (effect_trans _ _ _ _ _ E6 E7))
      as G4;
    cbn [app] in G4.
  - (* the block reaches its end *)
    right; right; right.
    exists sourceTracks, targetPlaylist,
      (filter (fun t => valid_match t = true) matchedTracks).
    rewrite exec_bind. unfold Date_now. rewrite exec_gets.
    rewrite exec_bind, exec_saveTransferHistory, exec_updateProgress.
    cbn [fst snd]. split; [reflexivity |]. split; [reflexivity |].
    split; [exact Htgt |].
    destruct G4 as (_ & He & Hi & Hc & Hl).
    split; [|split].
    + unfold add_log, set_ts, set_storage, progress_ts; cbn [ts].
      rewrite He, Hi, Hc. reflexivity.
    + unfold add_log, set_ts, set_storage; cbn [log].
      rewrite platform_calls_app, app_nil_r, Hl.
      unfold transfer_calls. rewrite <- !app_assoc. reflexivity.
    + exists matchedTracks. split; [exact Hrec |].
      apply (records_filter_valid _ _ _ Hrec).
  - (* the insertion fails *)
    right; right; left.
    exists e, sourceTracks, targetPlaylist,
      (filter (fun t => valid_match t = true) matchedTracks).
    cbn [fst snd]. split; [reflexivity |]. split; [reflexivity |].
    split; [exact Htgt |].
    destruct G4 as (Hs & _ & _ & _ & Hl).
    split; [exact Hs |]. split; [|split].
    + rewrite T7. apply (effect_progress_ts _ _ _ _ _ G3).
    + rewrite Hl. unfold transfer_calls. rewrite <- !app_assoc.
      reflexivity.
    + exists matchedTracks. split; [exact Hrec |].
      apply (records_filter_valid _ _ _ Hrec).
Qed.

End TransferOutcome.

(** ** Transfers that fail *)

(** X1.  When a phase of a transfer throws, nothing escapes from
    [performTransfer]: the message of the error is added to the errors,
    the popup is told "Transfer failed: ..." at the progress of the phase
    that failed (10, 60 or 80), the state is not transferring any more,
    and the storage, hence the history, is as it was. *)
Theorem failed_transfer_records_error {E} (api : ExternalApis E)
    (transferData : TransferData) (w w1 : World E) (e : string) :
  exec (performTransfer_try api transferData) w = (w1, Raise e) ->
  let res := exec (performTransfer api transferData) w in
  res.2 = Ok tt
  /\ isTransferring (ts res.1) = false
  /\ errors (ts res.1) = errors (ts w) ++ [e]
  /\ message (ts res.1) = Some ("Transfer failed: " +:+ e)
  /\ currentTransfer (ts res.1) = currentTransfer (ts w)
  /\ progress (ts res.1) = progress (ts w1)
  /\ (progress (ts w1) = 10%float \/ progress (ts w1) = 60%float
      \/ progress (ts w1) = 80%float)
  /\ last (progress_events (log res.1)) =
     Some (progress (ts w1), "Transfer failed: " +:+ e)
  /\ platform_calls (log res.1) = platform_calls (log w1)
  /\ storage res.1 = storage w.
Proof.
  intros Hrun res. subst res. rewrite exec_performTransfer, Hrun.
  cbn [fst snd].
  pose proof (performTransfer_try_outcome api transferData w) as Hout.
  cbv zeta in Hout. rewrite Hrun in Hout. cbn [fst snd] in Hout.
  assert (Hts : exists p msg,
             ts w1 = progress_ts p msg (ts w)
             /\ (p = 10%float \/ p = 60%float \/ p = 80%float)
             /\ storage w1 = storage w).
  { destruct Hout as [(e' & _ & _ & Hs & Ht & _)
                     |[(e' & l & _ & _ & Hs & Ht & _)
                      |[(e' & l & t & sub & _ & _ & _ & Hs & Ht & _)
                       |(l & t & sub & Habs & _)]]];
      [eauto 10 | eauto 10 | eauto 10 | discriminate Habs]. }
  destruct Hts as (p & msg & Ht & Hp & Hs).
  split; [reflexivity |]. split; [reflexivity |].
  unfold set_ts, add_log; cbn [ts log storage].
  rewrite Ht. cbn [failed_ts finished_ts progress_ts errors message
                   currentTransfer progress isTransferring].
  repeat (split; [reflexivity |]).
  split; [exact Hp |]. split.
  - rewrite progress_events_app. apply last_snoc.
  - split; [|exact Hs].
    rewrite platform_calls_app. apply app_nil_r.
Qed.

Lemma failed_transfer_records_error_witness :
  let w1 :=
    (exec (performTransfer_try (demo_api three_tracks) amazon_transfer)
       demo_world).1 in
  exec (performTransfer_try (demo_api three_tracks) amazon_transfer)
    demo_world =
  (w1, Raise "Platform amazon not supported for playlist creation")
  /\ errors
       (ts (exec (performTransfer (demo_api three_tracks) amazon_transfer)
              demo_world).1) =
     errors (ts demo_world)
     ++ ["Platform amazon not supported for playlist creation"].
Proof.
  intros w1.
  assert (Hrun :
    exec (performTransfer_try (demo_api three_tracks) amazon_transfer)
      demo_world =
    (w1, Raise "Platform amazon not supported for playlist creation"))
    by (vm_compute; reflexivity).
  split; [exact Hrun |].
  apply (failed_transfer_records_error (demo_api three_tracks)
           amazon_transfer demo_world w1 _ Hrun).
Defined.

(** X2.  A transfer from a platform that is not Spotify, Apple or YouTube
    (Amazon is such a platform) fails at once: the error "Platform ... not
    supported for track fetching" is recorded at progress 10, and no
    platform function has been called, nothing of the outside world or of
    the storage has changed. *)
Theorem unsupported_source_reaches_no_platform {E} (api : ExternalApis E)
    (transferData : TransferData) (w : World E) :
  supported (sourcePlatform transferData) = false ->
  let res := exec (performTransfer api transferData) w in
  errors (ts res.1) =
  errors (ts w)
  ++ ["Platform " +:+ sourcePlatform transferData
      +:+ " not supported for track fetching"]
  /\ progress (ts res.1) = 10%float
  /\ isTransferring (ts res.1) = false
  /\ platform_calls (log res.1) = platform_calls (log w)
  /\ ext res.1 = ext w
  /\ storage res.1 = storage w
  /\ supported "amazon" = false.
Proof.
  intros Hsup res. subst res.
  pose proof (performTransfer_try_outcome api transferData w) as Hout.
  cbv zeta in Hout.
  pose proof (getPlaylistTracks_effect api (sourcePlatform transferData)
                (pl_id (sourcePlaylist transferData))
                (add_log (EvProgress 10 "Fetching source playlist tracks...")
                   (set_ts
                      (progress_ts 10 "Fetching source playlist tracks...")
                      w))) as (_ & _ & Hfetch).
  destruct (Hfetch Hsup) as [Hraise _].
  rewrite exec_performTransfer.
  destruct (exec (performTransfer_try api transferData) w) as [w1 r].
  cbn [fst snd] in Hout.
  destruct Hout as [(e & -> & _ & Hs & Ht & Hl & Hun)
                   |[(e & l & _ & Hok & _)
                    |[(e & l & t & sub & _ & Hok & _)
                     |(l & t & sub & _ & Hok & _)]]];
    try (rewrite Hraise in Hok; discriminate Hok).
  destruct (Hun Hsup) as [-> Hext].
  rewrite Hsup, app_nil_r in Hl.
  unfold set_ts, add_log; cbn [fst ts log storage ext].
  rewrite Ht. cbn [failed_ts finished_ts progress_ts errors progress
                   isTransferring].
  repeat (split; [reflexivity |]).
  split; [rewrite platform_calls_app, app_nil_r; exact Hl |].
  split; [exact Hext |]. split; [exact Hs | reflexivity].
Qed.

Lemma unsupported_source_reaches_no_platform_witness :
  supported (sourcePlatform from_amazon_transfer) = false
  /\ platform_calls
       (log (exec (performTransfer (demo_api three_tracks)
                     from_amazon_transfer) demo_world).1) =
     platform_calls (log demo_world).
Proof.
  split; [reflexivity |].
  apply (unsupported_source_reaches_no_platform (demo_api three_tracks)
           from_amazon_transfer demo_world).
  reflexivity.
Defined.

(** X3.  A transfer to a platform that is not Spotify, Apple or YouTube is
    not refused at the start: once the source tracks are fetched, every
    one of them is searched on that platform, and only then does the
    creation of the playlist fail, at progress 60, with "Platform ... not
    supported for playlist creation".  Nothing is created, added or
    written to the history. *)
Theorem unsupported_target_fails_after_matching {E} (api : ExternalApis E)
    (transferData : TransferData) (w : World E)
    (sourceTracks : list Track) :
  supported (targetPlatform transferData) = false ->
  (exec (getPlaylistTracks api (sourcePlatform transferData)
           (pl_id (sourcePlaylist transferData)))
     (add_log (EvProgress 10 "Fetching source playlist tracks...")
        (set_ts (progress_ts 10 "Fetching source playlist tracks...") w))).2
  = Ok sourceTracks ->
  let res := exec (performTransfer api transferData) w in
  platform_calls (log res.1) =
  platform_calls (log w)
  ++ [EvGetTracks (sourcePlatform transferData)
        (pl_id (sourcePlaylist transferData))]
  ++ (EvSearch (targetPlatform transferData) <$> sourceTracks)
  /\ errors (ts res.1) =
     errors (ts w)
     ++ ["Platform " +:+ targetPlatform transferData
         +:+ " not supported for playlist creation"]
  /\ progress (ts res.1) = 60%float
  /\ isTransferring (ts res.1) = false
  /\ storage res.1 = storage w.
Proof.
  intros Hsup Hfetch res. subst res.
  pose proof (performTransfer_try_outcome api transferData w) as Hout.
  cbv zeta in Hout. rewrite Hfetch in Hout.
  rewrite exec_performTransfer.
  destruct (exec (performTransfer_try api transferData) w) as [w1 r].
  cbn [fst snd] in Hout.
  destruct Hout as [(e & _ & [=] & _)
                   |[(e & l & -> & [= <-] & Hs & Ht & Hl & Hun)
                    |[(e & l & t & sub & _ & _ & Habs & _)
                     |(l & t & sub & _ & _ & Habs & _)]]];
    try (rewrite Hsup in Habs; discriminate Habs).
  rewrite (Hun Hsup). rewrite Hsup, app_nil_r in Hl.
  unfold set_ts, add_log; cbn [fst ts log storage].
  rewrite Ht. cbn [failed_ts finished_ts progress_ts errors progress
                   isTransferring].
  split; [rewrite platform_calls_app, app_nil_r; exact Hl |].
  repeat (split; [reflexivity |]). exact Hs.
Qed.

Lemma unsupported_target_fails_after_matching_witness :
  supported (targetPlatform amazon_transfer) = false
  /\ search_calls
       (platform_calls
          (log (exec (performTransfer (demo_api three_tracks)
                        amazon_transfer) demo_world).1)) = three_tracks.
Proof.
  split; [reflexivity |].
  destruct (unsupported_target_fails_after_matching (demo_api three_tracks)
              amazon_transfer demo_world three_tracks eq_refl eq_refl)
    as [Hcalls _].
  rewrite Hcalls. reflexivity.
Defined.

(** ** The order of the phases *)

(** X4.  The matching phase searches every track exactly once, in the
    order of the playlist, whatever the earlier searches returned or
    threw, and makes no other call; it tells the popup once for each
    track, returns one result for each, and touches neither the storage
    nor the errors.  For no tracks it searches and tells nothing. *)
Theorem every_track_is_searched_once {E} (api : ExternalApis E)
    (platform : string) (tracks : list Track) (w : World E) :
  let res := exec (searchTracksOnPlatform api platform tracks) w in
  search_calls (log res.1) = search_calls (log w) ++ tracks
  /\ platform_calls (log res.1) =
     platform_calls (log w) ++ (EvSearch platform <$> tracks)
  /\ length (progress_events (log res.1)) =
     length (progress_events (log w)) + length tracks
  /\ (exists results,
        res.2 = Ok results /\ length results = length tracks)
  /\ storage res.1 = storage w
  /\ errors (ts res.1) = errors (ts w).
Proof.
  intros res. subst res.
  destruct (searchTracksOnPlatform_effect api platform tracks w)
    as ((Hs & He & _ & _ & Hl) & Hsc & Hp).
  destruct (searchTracksOnPlatform_spec api platform tracks w)
    as (w' & results & Hexec & Hrec & _).
  split; [exact Hsc |]. split; [exact Hl |]. split; [exact Hp |].
  split; [|split; [exact Hs | exact He]].
  exists results. rewrite Hexec. split; [reflexivity |].
  symmetry. exact (Forall3_length_lr _ _ _ _ Hrec).
Qed.

(** X5.  Whatever the platform functions do, the calls a transfer makes
    follow its phases.  When the fetch of the source tracks fails, it is
    the only call, and there is none when the source platform is not
    supported.  When it returns tracks, every one of them is searched, in
    their order, right after the fetch; what may follow is the creation
    of the target playlist and then one insertion, of the results that
    are found among those of these searches.  So at most one playlist is
    created, none before all the fetched tracks are searched, and nothing
    is inserted before the playlist is created. *)
Theorem transfer_calls_follow_the_phases {E} (api : ExternalApis E)
    (transferData : TransferData) (w : World E) :
  let src := sourcePlatform transferData in
  let tgt := targetPlatform transferData in
  let id := pl_id (sourcePlaylist transferData) in
  let fetched :=
    exec (getPlaylistTracks api src id)
      (add_log (EvProgress 10 "Fetching source playlist tracks...")
         (set_ts (progress_ts 10 "Fetching source playlist tracks...") w))
  in
  let res := exec (performTransfer api transferData) w in
  exists new : list Event,
    platform_calls (log res.1) = platform_calls (log w) ++ new
    /\ match fetched.2 with
       | Raise _ =>
           new = (if supported src then [EvGetTracks src id] else [])
       | Ok sourceTracks =>
           exists (targetPlaylist : Playlist)
                  (matchedTracks : list MatchResult),
             Forall3 records sourceTracks
               (search_outcomes api tgt (current_token api tgt fetched.1)
                  sourceTracks (ext fetched.1)).1
               matchedTracks
             /\ [EvGetTracks src id] ++ (EvSearch tgt <$> sourceTracks)
                `prefix_of` new
             /\ new `prefix_of`
                transfer_calls transferData sourceTracks targetPlaylist
                  (filter (fun t => found t = true) matchedTracks)
       end.
Proof.
  intros src tgt id fetched res. subst res.
  pose proof (performTransfer_try_outcome api transferData w) as Hout.
  cbv zeta in Hout. fold src tgt id fetched in Hout.
  assert (Hcalls :
    platform_calls
      (log (exec (performTransfer api transferData) w).1) =
    platform_calls (log (exec (performTransfer_try api transferData) w).1)).
  { rewrite exec_performTransfer.
    destruct (exec (performTransfer_try api transferData) w) as [w1 [[]|e]];
      [reflexivity |].
    unfold set_ts, add_log; cbn [fst log].
    rewrite platform_calls_app. apply app_nil_r. }
  rewrite Hcalls.
  destruct Hout as [(e & _ & Hf & _ & _ & Hl & _)
                   |[(e & l & _ & Hf & _ & _ & Hl & _)
                    |[(e & l & t & sub & _ & Hf & _ & _ & _ & Hl & Hsub)
                     |(l & t & sub & _ & Hf & _ & _ & Hl & Hsub)]]];
    eexists; (split; [exact Hl |]); rewrite Hf.
  - reflexivity.
  - destruct (searchTracksOnPlatform_spec api tgt l fetched.1)
      as (ws & matchedTracks & _ & Hrec & _).
    exists (demo_playlist []), matchedTracks.
    split; [exact Hrec |]. unfold transfer_calls. fold src tgt id.
    split.
    + eexists. rewrite <- !app_assoc. reflexivity.
    + destruct (supported tgt).
      * eexists [_]. rewrite <- !app_assoc. reflexivity.
      * rewrite app_nil_r. eexists. rewrite <- !app_assoc. reflexivity.
  - destruct Hsub as (matchedTracks & Hrec & ->).
    exists t, matchedTracks. split; [exact Hrec |].
    split; [|reflexivity].
    unfold transfer_calls. fold src tgt id.
    eexists. rewrite <- !app_assoc. reflexivity.
  - destruct Hsub as (matchedTracks & Hrec & ->).
    exists t, matchedTracks. split; [exact Hrec |].
    split; [|reflexivity].
    unfold transfer_calls. fold src tgt id.
    eexists. rewrite <- !app_assoc. reflexivity.
Qed.

Lemma records_none_found (tracks : list Track)
    (os : list (Outcome (option Track))) (rs : list MatchResult) :
  Forall3 records tracks os rs ->
  Forall (fun o => forall m, o <> Ok (Some m)) os ->
  filter (fun t => found t = true) rs = [].
Proof.
  induction 1 as [|t o r ts' os' rs' Hr _ IH]; intros Hnone;
    [reflexivity |].
  apply Forall_cons in Hnone as [Ho Hos].
  rewrite filter_cons, (IH Hos).
  destruct Hr as [m| |err]; [|reflexivity | reflexivity].
  exfalso. exact (Ho m eq_refl).
Qed.

Lemma search_outcomes_none_found {E} (api : ExternalApis E)
    (platform : string) (token : option TokenValue) (tracks : list Track) :
  (forall tok t e m, (searchTrack api platform tok t e).1 <> Ok (Some m)) ->
  forall e,
    Forall (fun o => forall m, o <> Ok (Some m))
      (search_outcomes api platform token tracks e).1.
Proof.
  intros Hnone. induction tracks as [|t tracks IH]; intros e; simpl;
    [constructor |].
  specialize (Hnone token t e).
  destruct (searchTrack api platform token t e) as [o e'].
  specialize (IH e').
  destruct (search_outcomes api platform token tracks e') as [os e''].
  constructor; [exact Hnone | exact IH].
Qed.

Lemma add_calls_platform_calls (l : list Event) :
  add_calls (platform_calls l) = add_calls l.
Proof.
  induction l as [|ev l IH]; [reflexivity |].
  unfold platform_calls in *. rewrite filter_cons.
  destruct ev; simpl; rewrite ?IH; reflexivity.
Qed.

(** X6.  When the target platform finds none of the tracks (every search
    returns nothing or fails), a transfer that reaches its end has still
    created the target playlist and called the insertion, with no track,
    and the record it writes counts 0 tracks transferred. *)
Theorem nothing_found_still_creates_playlist {E} (api : ExternalApis E)
    (transferData : TransferData) (w w1 : World E) :
  (forall tok t e m,
     (searchTrack api (targetPlatform transferData) tok t e).1
     <> Ok (Some m)) ->
  exec (performTransfer_try api transferData) w = (w1, Ok tt) ->
  (exists targetPlaylist,
     add_calls (log w1) =
     add_calls (log w)
     ++ [(targetPlatform transferData, pl_id targetPlaylist, [])])
  /\ (exists sourceTracks targetPlaylist,
        platform_calls (log w1) =
        platform_calls (log w)
        ++ transfer_calls transferData sourceTracks targetPlaylist [])
  /\ (exists record,
        head (history_of w1) = Some record
        /\ transferredTracks record = 0).
Proof.
  intros Hnone Hrun.
  destruct (performTransfer_try_complete api transferData w w1 Hrun)
    as (wf & sourceTracks & matchedTracks & targetPlaylist & now
        & _ & Hrec & _ & Hadd & Hst & _).
  pose proof (records_none_found _ _ _ Hrec
                (search_outcomes_none_found api _ _ sourceTracks Hnone _))
    as Hfound.
  rewrite (records_filter_valid _ _ _ Hrec), Hfound in Hadd.
  split; [|split].
  - exists targetPlaylist. exact Hadd.
  - pose proof (performTransfer_try_outcome api transferData w) as Hout.
    cbv zeta in Hout. rewrite Hrun in Hout. cbn [fst snd] in Hout.
    destruct Hout as [(e & [=] & _)
                     |[(e & l & [=] & _)
                      |[(e & l & t & sub & [=] & _)
                       |(l & t & sub & _ & _ & _ & _ & Hl & _)]]].
    exists l, t.
    assert (Hsub : sub = []).
    { apply (f_equal add_calls) in Hl.
      rewrite add_calls_app, !add_calls_platform_calls, Hadd in Hl.
      apply app_inv_head in Hl. unfold transfer_calls in Hl.
      rewrite !add_calls_app in Hl.
      replace (add_calls (EvSearch (targetPlatform transferData) <$> l))
        with (@nil (string * string * list MatchResult)) in Hl
        by (clear; induction l; [reflexivity | assumption]).
      simpl in Hl. injection Hl as _ <-. reflexivity. }
    rewrite <- Hsub. exact Hl.
  - eexists. unfold history_of. rewrite Hst. cbn [transferHistory default].
    rewrite push_history_take. cbn [take head].
    split; [reflexivity |].
    cbn [transferredTracks]. rewrite Hfound. reflexivity.
Qed.

Lemma nothing_found_still_creates_playlist_witness :
  let w1 :=
    (exec (performTransfer_try (silent_api three_tracks) demo_transfer)
       demo_world).1 in
  exec (performTransfer_try (silent_api three_tracks) demo_transfer)
    demo_world = (w1, Ok tt)
  /\ exists record,
       head (history_of w1) = Some record /\ transferredTracks record = 0.
Proof.
  intros w1.
  assert (Hrun :
    exec (performTransfer_try (silent_api three_tracks) demo_transfer)
      demo_world = (w1, Ok tt)) by (vm_compute; reflexivity).
  split; [exact Hrun |].
  apply (nothing_found_still_creates_playlist (silent_api three_tracks)
           demo_transfer demo_world w1); [|exact Hrun].
  intros tok t e m. simpl. discriminate.
Defined.

(** ** The waits of [retryOperation] *)

Section RetryBackoff.
Context {E A : Type} (operation : E -> Outcome A * E).


End RetryBackoff.


(** ** Cancelling, starting and saving together *)

Lemma deliver_start_idle {E} (api : ExternalApis E)
    (transferData : TransferData) (sys : System (E:=E)) :
  isTransferring (ts (world sys)) = false ->
  exists k,
    deliver api (MsgStartTransfer transferData) sys =
    mkSystem (started_world transferData (world sys)) (tasks sys ++ [k]).
Proof.
  intros Hidle.
  destruct (handleStartTransfer_idle api transferData (world sys) Hidle)
    as [k Hk].
  exists k. unfold deliver.
  change (onMessage api (MsgStartTransfer transferData) (world sys))
    with (handleStartTransfer api transferData (world sys)).
  rewrite Hk. reflexivity.
Qed.

(** X8.  A cancellation followed by a [startTransfer] is always accepted,
    whether or not the transfers started before have ended: both
    messages are answered with success, the new request becomes the
    current transfer of a state that is transferring, and one more
    transfer is in flight beside those already suspended. *)
Theorem cancel_then_start_is_accepted {E} (api : ExternalApis E)
    (transferData : TransferData) (sys : System (E:=E)) :
  let sys' :=
    deliver api (MsgStartTransfer transferData)
      (deliver api MsgCancelTransfer sys) in
  responses (log (world sys')) =
  responses (log (world sys))
  ++ [RespSuccess "Transfer cancelled"; RespSuccess "Transfer started"]
  /\ isTransferring (ts (world sys')) = true
  /\ currentTransfer (ts (world sys')) = Some transferData
  /\ length (tasks sys') = S (length (tasks sys)).
Proof.
  intros sys'. subst sys'.
  destruct (deliver_start_idle api transferData
              (deliver api MsgCancelTransfer sys) eq_refl) as [k ->].
  cbn [world tasks].
  split; [|split; [reflexivity | split; [reflexivity |]]].
  - unfold deliver; simpl. rewrite !responses_app. simpl.
    rewrite <- !app_assoc. reflexivity.
  - unfold deliver; simpl. rewrite length_app. simpl. lia.
Qed.

(** X9.  [saveTransferHistory] reads the history, then writes it back
    with the record in front.  When two of them are in flight and both
    have read before either writes, the record of the one that writes
    first is lost: the history ends with the second record alone in front
    of what was there, where two saves in turn keep both. *)
Theorem concurrent_saves_lose_a_record {E} (api : ExternalApis E)
    (r1 r2 : TransferRecord) (w : World E) :
  let sys :=
    mkSystem w
      (pending (saveTransferHistory r1) w
       ++ pending (saveTransferHistory r2) w) in
  let final := run_turns api sys [Resume 0; Resume 1; Resume 0; Resume 0] in
  length (tasks sys) = 2
  /\ length (tasks final) = 0
  /\ history_of (world final) = push_history r2 (history_of w)
  /\ history_of
       (exec (saveTransferHistory r1;; saveTransferHistory r2) w).1 =
     push_history r2 (push_history r1 (history_of w)).
Proof.
  repeat split.
Qed.

(** ** Authentication status and the listing of playlists *)

Section WorkerFacts.
Context {E : Type} (api : ExternalApis E).

Lemma exec_handleGetAuthStatus (w : World E) :
  exec handleGetAuthStatus w =
  (w,
   Ok (AuthStatusOk
         ((fun platform =>
             (platform,
              mkPlatformStatus
                (truthy (default ∅ (authTokens (storage w)) !! platform))
                (expires_or_null
                   (default ∅ (authTokens (storage w)) !! platform
                    ≫= expires))))
            <$> PLATFORMS_keys))).
Proof. reflexivity. Qed.

Lemma PLATFORMS_keys_cases (platform : string) :
  platform ∈ PLATFORMS_keys ->
  platform = "spotify" \/ platform = "apple" \/ platform = "youtube"
  \/ platform = "amazon".
Proof.
  unfold PLATFORMS_keys. rewrite !elem_of_cons, elem_of_nil. tauto.
Qed.

Lemma status_lookup (f : string -> PlatformStatus) (platform : string) :
  platform ∈ PLATFORMS_keys ->
  PopupUI.authStatus_of ((fun p => (p, f p)) <$> PLATFORMS_keys) !! platform
  = Some (f platform).
Proof.
  intros Hin. unfold PopupUI.authStatus_of, PLATFORMS_keys. simpl.
  destruct (PLATFORMS_keys_cases platform Hin) as [-> | [-> | [-> | ->]]];
    simplify_map_eq; reflexivity.
Qed.

Lemma status_lookup_other (f : string -> PlatformStatus)
    (platform : string) :
  platform ∉ PLATFORMS_keys ->
  PopupUI.authStatus_of ((fun p => (p, f p)) <$> PLATFORMS_keys) !! platform
  = None.
Proof.
  intros Hnot. unfold PopupUI.authStatus_of.
  apply not_elem_of_list_to_map_1.
  rewrite <- list_fmap_compose. simpl. exact Hnot.
Qed.

End WorkerFacts.

(** X10.  [handleGetAuthStatus] answers for the four platforms of
    [PLATFORMS], in that order, and changes nothing.  A platform is
    reported as authenticated exactly when a token is stored for it.  The
    expiry is not looked at: a stored token that has expired is reported
    as authenticated although [getAuthToken] returns [null] for it. *)
Theorem auth_status_ignores_expiry {E} (api : ExternalApis E)
    (w : World E) :
  exists status,
    exec handleGetAuthStatus w = (w, Ok (AuthStatusOk status))
    /\ status.*1 = PLATFORMS_keys
    /\ (forall platform,
          platform ∈ PLATFORMS_keys ->
          PopupUI.is_authenticated (PopupUI.authStatus_of status) platform
          = truthy (default ∅ (authTokens (storage w)) !! platform))
    /\ (forall platform token,
          platform ∈ PLATFORMS_keys ->
          default ∅ (authTokens (storage w)) !! platform = Some token ->
          token_expired token (date_now api (ext w)) = true ->
          PopupUI.is_authenticated (PopupUI.authStatus_of status) platform
          = true
          /\ exec (getAuthToken api platform) w = (w, Ok None)).
Proof.
  eexists. split; [apply exec_handleGetAuthStatus |].
  split; [reflexivity |]. split.
  - intros platform Hin. unfold PopupUI.is_authenticated.
    rewrite (status_lookup _ platform Hin). reflexivity.
  - intros platform token Hin Htok Hexp. split.
    + unfold PopupUI.is_authenticated.
      rewrite (status_lookup _ platform Hin). simpl. rewrite Htok.
      reflexivity.
    + rewrite exec_getAuthToken. unfold current_token, authTokens_get.
      rewrite Htok. cbn [value_expired]. rewrite Hexp. reflexivity.
Qed.

Lemma auth_status_ignores_expiry_witness :
  exists status,
    exec handleGetAuthStatus expired_world =
    (expired_world, Ok (AuthStatusOk status))
    /\ PopupUI.is_authenticated (PopupUI.authStatus_of status) "spotify"
       = true
    /\ exec (getAuthToken (demo_api []) "spotify") expired_world =
       (expired_world, Ok None).
Proof.
  destruct (auth_status_ignores_expiry (demo_api []) expired_world)
    as (status & Hexec & _ & _ & Hexp).
  exists status. split; [exact Hexec |].
  apply (Hexp "spotify" (mkAuthToken "old-token" (Some (-1)%Z))).
  - unfold PLATFORMS_keys. constructor.
  - reflexivity.
  - reflexivity.
Defined.

(** X11.  [handleGetPlaylists] always answers, and never throws.  When
    [getAuthToken] gives no token for the platform, the answer is the
    error "Not authenticated with ..." and nothing has been sent over the
    network: the world is as it was.  [getAuthToken] gives no token
    exactly when the entry stored for the platform has expired or, with
    no entry stored, when the platform is not the name of a member of
    [Object.prototype]. *)
Theorem listing_requires_a_token {E P} (api : ExternalApis E)
    (net : PlaylistApis E P) (platform : string) (w : World E) :
  (exists reply, (exec (handleGetPlaylists api net platform) w).2 = Ok reply)
  /\ (current_token api platform w = None ->
      exec (handleGetPlaylists api net platform) w =
      (w, Ok (PlaylistsError ("Not authenticated with " +:+ platform))))
  /\ (current_token api platform w = None <->
      match default ∅ (authTokens (storage w)) !! platform with
      | Some token => token_expired token (date_now api (ext w)) = true
      | None => platform ∉ Object_prototype_names
      end).
Proof.
  unfold handleGetPlaylists.
  rewrite exec_try_catch, exec_bind, exec_getAuthToken.
  split; [|split].
  - destruct (current_token api platform w) as [token|].
    + rewrite exec_bind.
      destruct (exec (fetchPlaylists net platform token) w)
        as [w' [playlists|e]]; simpl; eauto.
    + simpl. eauto.
  - intros ->. reflexivity.
  - unfold current_token, authTokens_get.
    destruct (default ∅ (authTokens (storage w)) !! platform) as [token|].
    + cbn [value_expired].
      destruct (token_expired token (date_now api (ext w)));
        split; intros H; try reflexivity; discriminate H.
    + case_bool_decide as Hin; cbn [value_expired].
      * split; [discriminate | intros Hnot; contradiction].
      * split; [intros _; exact Hin | reflexivity].
Qed.

Lemma listing_requires_a_token_witness :
  current_token (demo_api []) "spotify" expired_world = None
  /\ exec (handleGetPlaylists (demo_api []) demo_net "spotify")
       expired_world =
     (expired_world, Ok (PlaylistsError "Not authenticated with spotify")).
Proof.
  split; [reflexivity |].
  apply (listing_requires_a_token (demo_api []) demo_net "spotify"
           expired_world).
  reflexivity.
Defined.

(** X12.  The playlists of Amazon, and of any platform that is not
    Spotify, Apple or YouTube, cannot be listed: the answer is an error,
    and the network is not used.  When [getAuthToken] gives no token the
    error is "Not authenticated with ..."; when it gives one, the error
    is "Amazon Music API integration not yet implemented" for Amazon and
    "Unsupported platform: ..." for the others.  In particular, for the
    name of a member of [Object.prototype] with no entry stored,
    [getAuthToken] gives that member and the error is "Unsupported
    platform: ...". *)
Theorem listing_fails_for_unsupported_platforms {E P}
    (api : ExternalApis E) (net : PlaylistApis E P) (platform : string)
    (w : World E) :
  supported platform = false ->
  exec (handleGetPlaylists api net platform) w =
  (w,
   Ok (PlaylistsError
         match current_token api platform w with
         | None => "Not authenticated with " +:+ platform
         | Some _ =>
             if decide (platform = "amazon")
             then "Amazon Music API integration not yet implemented"
             else "Unsupported platform: " +:+ platform
         end))
  /\ (platform ∈ Object_prototype_names ->
      default ∅ (authTokens (storage w)) !! platform = None ->
      current_token api platform w = Some (InheritedMember platform)
      /\ exec (handleGetPlaylists api net platform) w =
         (w, Ok (PlaylistsError ("Unsupported platform: " +:+ platform)))).
Proof.
  intros Hsup.
  assert (Hreply :
    exec (handleGetPlaylists api net platform) w =
    (w,
     Ok (PlaylistsError
           match current_token api platform w with
           | None => "Not authenticated with " +:+ platform
           | Some _ =>
               if decide (platform = "amazon")
               then "Amazon Music API integration not yet implemented"
               else "Unsupported platform: " +:+ platform
           end))).
  { unfold handleGetPlaylists.
    rewrite exec_try_catch, exec_bind, exec_getAuthToken.
    destruct (current_token api platform w) as [token|]; [|reflexivity].
    rewrite exec_bind. unfold supported in Hsup.
    apply orb_false_elim in Hsup as [Hsup H3].
    apply orb_false_elim in Hsup as [H1 H2].
    apply bool_decide_eq_false in H1, H2, H3.
    unfold fetchPlaylists.
    rewrite !decide_False by assumption.
    destruct (decide (platform = "amazon")); reflexivity. }
  split; [exact Hreply |].
  intros Hin Hnone.
  assert (Htok :
    current_token api platform w = Some (InheritedMember platform)).
  { unfold current_token, authTokens_get.
    rewrite Hnone, (bool_decide_eq_true_2 _ Hin). reflexivity. }
  split; [exact Htok |].
  rewrite Hreply, Htok.
  destruct (decide (platform = "amazon")) as [-> | _]; [|reflexivity].
  exfalso. unfold Object_prototype_names in Hin.
  rewrite !elem_of_cons, elem_of_nil in Hin.
  repeat (destruct Hin as [Hin | Hin]; [discriminate Hin |]).
  exact Hin.
Qed.

Lemma listing_fails_for_unsupported_platforms_witness :
  supported "constructor" = false
  /\ exec (handleGetPlaylists (demo_api []) demo_net "constructor")
       demo_world =
     (demo_world, Ok (PlaylistsError "Unsupported platform: constructor"))
  /\ exec (handleGetPlaylists (demo_api []) demo_net "amazon") demo_world =
     (demo_world, Ok (PlaylistsError "Not authenticated with amazon")).
Proof.
  split; [reflexivity |]. split.
  - apply (listing_fails_for_unsupported_platforms (demo_api []) demo_net
             "constructor" demo_world eq_refl).
    + unfold Object_prototype_names. apply elem_of_cons. left. reflexivity.
    + reflexivity.
  - apply (listing_fails_for_unsupported_platforms (demo_api []) demo_net
             "amazon" demo_world eq_refl).
Defined.

(** ** The rate limiter *)

Section RateLimiterFacts.

Lemma foldl_min_elem (xs : list Z) (x : Z) :
  foldl Z.min x xs ∈ x :: xs.
Proof.
  revert x. induction xs as [|y ys IH]; intros x; simpl.
  - apply elem_of_cons. left. reflexivity.
  - specialize (IH (Z.min x y)). apply elem_of_cons in IH as [-> | IH].
    + destruct (Z.min_spec x y) as [[_ ->] | [_ ->]].
      * apply elem_of_cons. left. reflexivity.
      * apply elem_of_cons. right. apply elem_of_cons. left. reflexivity.
    + apply elem_of_cons. right. apply elem_of_cons. right. exact IH.
Qed.

Lemma foldl_min_le (xs : list Z) (x : Z) :
  (foldl Z.min x xs <= x)%Z
  /\ Forall (fun y => (foldl Z.min x xs <= y)%Z) xs.
Proof.
  revert x. induction xs as [|y ys IH]; intros x; simpl.
  - split; [lia | constructor].
  - destruct (IH (Z.min x y)) as [Hle Hall]. split; [lia |].
    constructor; [lia | exact Hall].
Qed.

Lemma Math_min_spec (xs : list Z) (m : Z) :
  RateLimiter.Math_min xs = Some m ->
  m ∈ xs /\ Forall (fun y => (m <= y)%Z) xs.
Proof.
  destruct xs as [|x xs]; [discriminate |]. intros [= <-].
  split; [apply foldl_min_elem |].
  destruct (foldl_min_le xs x) as [Hle Hall].
  constructor; assumption.
Qed.

Lemma filter_replicate_all {A} (P : A -> Prop) `{!forall x, Decision (P x)}
    (n : nat) (x : A) :
  P x -> filter P (replicate n x) = replicate n x.
Proof.
  intros HP. induction n as [|n IH]; [reflexivity |].
  simpl. rewrite filter_cons_True by exact HP. rewrite IH. reflexivity.
Qed.

Lemma filter_replicate_none {A} (P : A -> Prop) `{!forall x, Decision (P x)}
    (n : nat) (x : A) :
  ~ P x -> filter P (replicate n x) = [].
Proof.
  intros HP. induction n as [|n IH]; [reflexivity |].
  simpl. rewrite filter_cons_False by exact HP. exact IH.
Qed.

Lemma replicate_snoc {A} (n : nat) (x : A) :
  replicate n x ++ [x] = replicate (S n) x.
Proof.
  induction n as [|n IH]; [reflexivity |].
  simpl. rewrite IH. reflexivity.
Qed.

(** Calls at one instant, as long as the limit is not reached, go on at
    once and are recorded. *)
Lemma calls_below_limit (n t : Z) (k j : nat) :
  (Z.of_nat (j + k) <= n)%Z ->
  RateLimiter.calls (replicate k t) (RateLimiter.mk n (replicate j t)) =
  (replicate k (Some t), RateLimiter.mk n (replicate (j + k) t)).
Proof.
  revert j. induction k as [|k IH]; intros j Hle.
  - rewrite Nat.add_0_r. reflexivity.
  - simpl RateLimiter.calls.
    unfold RateLimiter.waitForSlot, RateLimiter.enter. simpl.
    rewrite filter_replicate_all by lia.
    rewrite length_replicate.
    destruct (n <=? Z.of_nat j)%Z eqn:Hlim;
      [apply Z.leb_le in Hlim; lia |].
    unfold RateLimiter.leave. simpl. rewrite replicate_snoc.
    rewrite (IH (S j)) by lia.
    replace (S j + k) with (j + S k) by lia. reflexivity.
Qed.

Lemma calls_app (l1 l2 : list Z) (self : RateLimiter.t) :
  RateLimiter.calls (l1 ++ l2) self =
  ((RateLimiter.calls l1 self).1
   ++ (RateLimiter.calls l2 (RateLimiter.calls l1 self).2).1,
   (RateLimiter.calls l2 (RateLimiter.calls l1 self).2).2).
Proof.
  revert self. induction l1 as [|now l1 IH]; intros self.
  - simpl. destruct (RateLimiter.calls l2 self); reflexivity.
  - simpl. destruct (RateLimiter.waitForSlot now self) as [self' wait].
    rewrite IH.
    destruct (RateLimiter.calls l1 self') as [r1 s1]. reflexivity.
Qed.

(** A caller that finds the limit reached by requests of its own instant
    waits a second, and is recorded at the instant it arrived. *)
Lemma waitForSlot_limit_reached (n : nat) (t : Z) :
  1 <= n ->
  RateLimiter.waitForSlot t (RateLimiter.mk (Z.of_nat n) (replicate n t)) =
  (RateLimiter.mk (Z.of_nat n) (replicate (S n) t),
   Some (RateLimiter.Finite 1000)).
Proof.
  intros Hn. unfold RateLimiter.waitForSlot, RateLimiter.enter.
  cbn [RateLimiter.requests RateLimiter.requestsPerSecond].
  rewrite filter_replicate_all by lia.
  rewrite length_replicate, Z.leb_refl.
  unfold RateLimiter.leave.
  cbn [RateLimiter.requests RateLimiter.requestsPerSecond].
  rewrite replicate_snoc. f_equal. f_equal.
  destruct n as [|n]; [lia |]. simpl.
  pose proof (foldl_min_elem (replicate n t) t) as Hin.
  apply elem_of_cons in Hin as [Hin | Hin].
  - rewrite Hin. f_equal. lia.
  - apply elem_of_replicate in Hin as [Hin _]. rewrite Hin. f_equal. lia.
Qed.

(** A second later the requests of that instant are forgotten. *)
Lemma waitForSlot_after_a_second (n k : nat) (t : Z) :
  1 <= n ->
  RateLimiter.waitForSlot (t + 1000)
    (RateLimiter.mk (Z.of_nat n) (replicate k t)) =
  (RateLimiter.mk (Z.of_nat n) [(t + 1000)%Z], None).
Proof.
  intros Hn. unfold RateLimiter.waitForSlot, RateLimiter.enter.
  cbn [RateLimiter.requests RateLimiter.requestsPerSecond].
  rewrite filter_replicate_none by lia. simpl length.
  destruct (Z.of_nat n <=? Z.of_nat 0)%Z eqn:Hlim;
    [apply Z.leb_le in Hlim; lia |].
  reflexivity.
Qed.

End RateLimiterFacts.

(** X13.  With a limit of at least one request per second and a clock
    that did not go back, [waitForSlot] keeps the requests of the last
    second, records the time of the call after them, and makes the caller
    wait exactly when the limit is reached by the requests of the last
    second: then the wait is the time until the oldest of them is a
    second old, more than zero and at most 1000 ms. *)
Theorem limiter_waits_for_the_oldest_request (now : Z)
    (self : RateLimiter.t) :
  (1 <= RateLimiter.requestsPerSecond self)%Z ->
  Forall (fun time => (time <= now)%Z) (RateLimiter.requests self) ->
  let recent :=
    filter (fun time => (now - time < 1000)%Z) (RateLimiter.requests self) in
  let out := RateLimiter.waitForSlot now self in
  RateLimiter.requests out.1 = recent ++ [now]
  /\ RateLimiter.requestsPerSecond out.1 = RateLimiter.requestsPerSecond self
  /\ Forall (fun time => (now - 1000 < time <= now)%Z)
       (RateLimiter.requests out.1)
  /\ match out.2 with
     | None =>
         (Z.of_nat (length recent) < RateLimiter.requestsPerSecond self)%Z
     | Some (RateLimiter.Finite ms) =>
         (RateLimiter.requestsPerSecond self <= Z.of_nat (length recent))%Z
         /\ (0 < ms <= 1000)%Z
         /\ exists oldest,
              oldest ∈ recent
              /\ Forall (fun time => (oldest <= time)%Z) recent
              /\ (now + ms = oldest + 1000)%Z
     | Some RateLimiter.Infinite => False
     end.
Proof.
  intros Hrps Hpast recent out.
  assert (Hrecent : Forall (fun time => (now - 1000 < time <= now)%Z) recent).
  { apply Forall_forall. intros time Hin.
    apply list_elem_of_filter in Hin as [Hnew Hin].
    rewrite Forall_forall in Hpast. specialize (Hpast time Hin). lia. }
  subst out. unfold RateLimiter.waitForSlot, RateLimiter.enter.
  fold recent. cbn [RateLimiter.requestsPerSecond].
  destruct (RateLimiter.requestsPerSecond self <=? Z.of_nat (length recent))%Z
    eqn:Hlim; cbn [fst snd RateLimiter.leave RateLimiter.requests
                   RateLimiter.requestsPerSecond].
  - apply Z.leb_le in Hlim.
    split; [reflexivity |]. split; [reflexivity |]. split.
    { apply Forall_app. split; [exact Hrecent |].
      constructor; [lia | constructor]. }
    destruct (RateLimiter.Math_min recent) as [oldest|] eqn:Hmin.
    + apply Math_min_spec in Hmin as [Hin Hall].
      split; [exact Hlim |].
      rewrite Forall_forall in Hrecent.
      pose proof (Hrecent oldest Hin) as Hold.
      split; [lia |]. exists oldest.
      split; [exact Hin |]. split; [exact Hall | lia].
    + destruct recent; [simpl in Hlim; lia | discriminate Hmin].
  - apply Z.leb_gt in Hlim.
    split; [reflexivity |]. split; [reflexivity |]. split.
    { apply Forall_app. split; [exact Hrecent |].
      constructor; [lia | constructor]. }
    exact Hlim.
Qed.

Lemma limiter_waits_for_the_oldest_request_witness :
  (RateLimiter.waitForSlot 1500
     (RateLimiter.mk 2 [100; 900; 1200]%Z)).2
  = Some (RateLimiter.Finite 400)
  /\ Forall (fun time => (500 < time <= 1500)%Z)
       (RateLimiter.requests
          (RateLimiter.waitForSlot 1500
             (RateLimiter.mk 2 [100; 900; 1200]%Z)).1).
Proof.
  split; [reflexivity |].
  apply (limiter_waits_for_the_oldest_request 1500
           (RateLimiter.mk 2 [100; 900; 1200]%Z)).
  - simpl. lia.
  - repeat constructor; lia.
Defined.

(** X14.  The limiter records the time at which a caller arrived, not
    the time at which it went on after its wait.  So with a limit of [n]
    requests per second, [n] callers at an instant [t] go on at once, the
    next caller at [t] waits a second, and [n] more callers arriving at
    [t + 1000] do not wait at all: [n + 1] requests go on at the instant
    [t + 1000], one more than the limit. *)
Theorem limiter_lets_a_burst_exceed_the_limit (n : nat) (t : Z) :
  1 <= n ->
  (RateLimiter.calls
     (replicate n t ++ [t] ++ replicate n (t + 1000)%Z)
     (RateLimiter.new (Some (Z.of_nat n)))).1 =
  replicate n (Some t) ++ replicate (S n) (Some (t + 1000)%Z).
Proof.
  intros Hn. unfold RateLimiter.new. simpl default.
  rewrite calls_app.
  change (RateLimiter.mk (Z.of_nat n) [])
    with (RateLimiter.mk (Z.of_nat n) (replicate 0 t)).
  rewrite (calls_below_limit (Z.of_nat n) t n 0) by lia.
  cbn [fst snd]. f_equal.
  change ([t] ++ replicate n (t + 1000)%Z)
    with (t :: replicate n (t + 1000)%Z).
  cbn [RateLimiter.calls]. rewrite Nat.add_0_l.
  rewrite (waitForSlot_limit_reached n t Hn).
  destruct n as [|n]; [lia |].
  change (replicate (S n) (t + 1000)%Z)
    with ((t + 1000)%Z :: replicate n (t + 1000)%Z).
  cbn [RateLimiter.calls].
  rewrite (waitForSlot_after_a_second (S n) (S (S n)) t Hn).
  change [(t + 1000)%Z] with (replicate 1 (t + 1000)%Z).
  rewrite (calls_below_limit (Z.of_nat (S n)) (t + 1000) n 1) by lia.
  reflexivity.
Qed.

Lemma limiter_lets_a_burst_exceed_the_limit_witness :
  (RateLimiter.calls [0; 0; 0; 1000; 1000]%Z (RateLimiter.new (Some 2%Z))).1
  = [Some 0; Some 0; Some 1000; Some 1000; Some 1000]%Z.
Proof.
  apply (limiter_lets_a_burst_exceed_the_limit 2 0%Z). lia.
Defined.

(** ** The popup and the pages *)

Section PopupFacts.

Lemma is_authenticated_status (f : string -> PlatformStatus)
    (platform : string) :
  PopupUI.is_authenticated
    (PopupUI.authStatus_of ((fun p => (p, f p)) <$> PLATFORMS_keys)) platform
  = bool_decide (platform ∈ PLATFORMS_keys) && authenticated (f platform).
Proof.
  unfold PopupUI.is_authenticated.
  destruct (decide (platform ∈ PLATFORMS_keys)) as [Hin | Hnot].
  - rewrite (status_lookup f platform Hin).
    rewrite bool_decide_eq_true_2 by exact Hin. reflexivity.
  - rewrite (status_lookup_other f platform Hnot).
    rewrite bool_decide_eq_false_2 by exact Hnot. reflexivity.
Qed.

Lemma truthy_is_Some {A} (x : option A) : truthy x = true <-> is_Some x.
Proof.
  destruct x; simpl; split; intros H; try reflexivity; try discriminate.
  - eauto.
  - destruct H as [? H]. discriminate H.
Qed.

End PopupFacts.

(** X15.  The popup enables the button that starts a transfer exactly
    when the two selected platforms are different platforms of
    [PLATFORMS] for which [handleGetAuthStatus] found a stored token,
    expired or not, Amazon included.  When the button is enabled, the
    guard of the click handler passes: with an active tab and a playlist
    on the page a [startTransfer] message is sent for these two
    platforms. *)
Theorem button_enabled_iff_tokens_stored {E} (w : World E)
    (status : list (string * PlatformStatus)) (source target : string) :
  (exec handleGetAuthStatus w).2 = Ok (AuthStatusOk status) ->
  (PopupUI.updateTransferButton source target (PopupUI.authStatus_of status)
   = false
   <-> source <> target
       /\ source ∈ PLATFORMS_keys /\ target ∈ PLATFORMS_keys
       /\ is_Some (default ∅ (authTokens (storage w)) !! source)
       /\ is_Some (default ∅ (authTokens (storage w)) !! target))
  /\ (PopupUI.updateTransferButton source target
        (PopupUI.authStatus_of status) = false ->
      forall tab playlist settings,
      exists transferData,
        Popup.handleStartTransfer source target (Some tab)
          (Ok (Some (Popup.mkPlaylistResponse true (Some playlist))))
          settings
        = Popup.SendStartTransfer transferData
        /\ sourcePlatform transferData = source
        /\ targetPlatform transferData = target
        /\ sourcePlaylist transferData = playlist).
Proof.
  intros Hstatus.
  set (f := fun platform : string =>
              mkPlatformStatus
                (truthy (default ∅ (authTokens (storage w)) !! platform))
                (expires_or_null
                   (default ∅ (authTokens (storage w)) !! platform
                    ≫= expires))).
  assert (status = (fun p => (p, f p)) <$> PLATFORMS_keys) as ->.
  { rewrite exec_handleGetAuthStatus in Hstatus.
    injection Hstatus as <-. reflexivity. }
  clear Hstatus. unfold PopupUI.updateTransferButton.
  rewrite !is_authenticated_status. subst f. cbn [authenticated].
  assert (Hne : forall platform, platform ∈ PLATFORMS_keys -> platform <> "").
  { intros platform Hin ->. unfold PLATFORMS_keys in Hin.
    rewrite !elem_of_cons, elem_of_nil in Hin.
    destruct Hin as [H | [H | [H | [H | []]]]]; discriminate H. }
  split.
  - rewrite negb_false_iff, !andb_true_iff, !negb_true_iff.
    rewrite !bool_decide_eq_false, !bool_decide_eq_true, !truthy_is_Some.
    split.
    + intros [[[[_ _] Hdiff] [Hs Hts]] [Ht Htt]]. tauto.
    + intros (Hdiff & Hs & Ht & Hts & Htt). auto 10.
  - rewrite negb_false_iff, !andb_true_iff, !negb_true_iff.
    rewrite !bool_decide_eq_false.
    intros [[[[Hs Ht] Hdiff] _] _] tab playlist settings.
    eexists. unfold Popup.handleStartTransfer.
    rewrite !bool_decide_eq_false_2 by assumption. simpl.
    repeat split.
Qed.

Lemma button_enabled_iff_tokens_stored_witness :
  PopupUI.updateTransferButton "spotify" "amazon"
    (PopupUI.authStatus_of
       ((fun platform =>
           (platform,
            mkPlatformStatus
              (truthy
                 (default ∅ (authTokens (storage connected_world))
                    !! platform))
              (expires_or_null
                 (default ∅ (authTokens (storage connected_world))
                    !! platform ≫= expires))))
          <$> PLATFORMS_keys))
  = false.
Proof.
  apply (button_enabled_iff_tokens_stored connected_world _
           "spotify" "amazon" eq_refl).
  split; [discriminate |].
  split; [unfold PLATFORMS_keys; set_solver |].
  split; [unfold PLATFORMS_keys; set_solver |].
  split; eexists; reflexivity.
Defined.

(** X16.  Every [startTransfer] message the popup sends names two
    different non-empty platforms, carries the playlist the page replied
    with, and has options that are set: a batch size that is not zero and
    a conflict resolution that is not empty. *)
Theorem popup_request_is_well_formed (source target : string)
    (currentTab : option nat)
    (playlistResponse : Outcome (option Popup.PlaylistResponse))
    (settings : Popup.Settings) (transferData : TransferData) :
  Popup.handleStartTransfer source target currentTab playlistResponse
    settings = Popup.SendStartTransfer transferData ->
  sourcePlatform transferData = source
  /\ targetPlatform transferData = target
  /\ source <> "" /\ target <> "" /\ source <> target
  /\ is_Some currentTab
  /\ playlistResponse =
     Ok (Some (Popup.mkPlaylistResponse true
                 (Some (sourcePlaylist transferData))))
  /\ batchSize (options transferData) <> 0
  /\ conflictResolution (options transferData) <> "".
Proof.
  unfold Popup.handleStartTransfer.
  destruct (bool_decide (source = "")) eqn:Hs; [discriminate |].
  destruct (bool_decide (target = "")) eqn:Ht; [discriminate |].
  destruct (bool_decide (source = target)) eqn:Hd; [discriminate |].
  apply bool_decide_eq_false in Hs, Ht, Hd. simpl.
  destruct currentTab as [tab|]; [|discriminate].
  destruct playlistResponse as [[[[] [playlist|]]|]|e]; try discriminate.
  intros [= <-]. cbn.
  repeat split; try assumption; try (eexists; reflexivity).
  - destruct (Popup.s_batchSize settings) as [[|n]|]; simpl; lia.
  - destruct (Popup.s_conflictResolution settings) as [s|]; simpl;
      [|discriminate].
    destruct (decide (s = "")); [discriminate | assumption].
Qed.

Lemma popup_request_is_well_formed_witness :
  batchSize
    (options
       (mkTransferData (demo_playlist three_tracks) "spotify" "apple"
          (mkOptions "skip" 50))) <> 0.
Proof.
  apply (popup_request_is_well_formed "spotify" "apple" (Some 1)
           (Ok (Some (Popup.mkPlaylistResponse true
                        (Some (demo_playlist three_tracks)))))
           (Popup.mkSettings (Some "") (Some 0))).
  reflexivity.
Defined.

(** X17.  What the popup shows of the history after the service worker
    saved records: the five records saved last, newest first, of the
    fifty that are kept, each with the title of its playlist, its counts
    and the display names of its two platforms as
    [getPlatformDisplayName] gives them: for a platform that is the name
    of a member of [Object.prototype], that member and not the name. *)
Theorem popup_shows_five_newest_transfers {E}
    (rs : list TransferRecord) (w : World E) :
  rs <> [] ->
  PopupUI.loadTransferHistory (exec (save_all rs) w).1 =
  PopupUI.HistoryItems
    (PopupUI.history_item <$> take 5 (reverse rs ++ history_of w))
  /\ (forall transfer : TransferRecord,
        rec_sourcePlatform transfer ∈ Object_prototype_names ->
        PopupUI.item_source (PopupUI.history_item transfer) =
        PopupUI.NameMember (rec_sourcePlatform transfer))
  /\ (forall transfer : TransferRecord,
        rec_targetPlatform transfer ∈ Object_prototype_names ->
        PopupUI.item_target (PopupUI.history_item transfer) =
        PopupUI.NameMember (rec_targetPlatform transfer)).
Proof.
  intros Hrs.
  assert (Hname : forall platform,
            platform ∈ Object_prototype_names ->
            PopupUI.getPlatformDisplayName platform =
            PopupUI.NameMember platform).
  { intros platform Hin. unfold PopupUI.getPlatformDisplayName.
    rewrite (bool_decide_eq_true_2 _ Hin).
    repeat (destruct (decide _) as [-> | _];
            [exfalso; unfold Object_prototype_names in Hin;
             rewrite !elem_of_cons, elem_of_nil in Hin;
             repeat (destruct Hin as [Hin | Hin]; [discriminate Hin |]);
             exact Hin |]).
    reflexivity. }
  split; [|split; intros transfer Hin; exact (Hname _ Hin)].
  unfold PopupUI.loadTransferHistory.
  change (default [] (transferHistory (storage (exec (save_all rs) w).1)))
    with (history_of (exec (save_all rs) w).1).
  rewrite history_of_save_all.
  destruct rs as [|r rs]; [contradiction |].
  unfold PopupUI.updateHistoryUI.
  rewrite take_take. change (5 `min` 50) with 5.
  rewrite decide_False; [reflexivity |].
  rewrite length_take, length_app, length_reverse. simpl. lia.
Qed.

Lemma popup_shows_five_newest_transfers_witness :
  PopupUI.loadTransferHistory
    (exec (save_all (map demo_record (seqZ 1 7))) demo_world).1 =
  PopupUI.HistoryItems
    (PopupUI.history_item <$> map demo_record [7; 6; 5; 4; 3]%Z).
Proof.
  apply (popup_shows_five_newest_transfers (map demo_record (seqZ 1 7))
           demo_world).
  discriminate.
Defined.

(** X18.  The button the content scripts put in the page sends the
    action [openTransferDialog], which is none of the actions of the
    listener of the service worker: whatever the handlers of its nine
    actions do, the message takes the [default] branch, the reply is the
    error "Unknown action", the transfer state and the storage are
    untouched, and for this reply the page shows the error. *)
Theorem page_button_message_is_unknown {E}
    (branch : string -> Prog E (option (Promise (E:=E))))
    (currentPlaylist : Playlist) (PLATFORM : string) (w : World E) :
  exists action reply,
    Content.handleTransferClick (Some currentPlaylist) PLATFORM =
    Content.SendMessage action currentPlaylist PLATFORM
    /\ exec (listener branch action) w =
       (add_log (EvResponse reply) w, Ok None)
    /\ ts (add_log (EvResponse reply) w) = ts w
    /\ storage (add_log (EvResponse reply) w) = storage w
    /\ responses (log (add_log (EvResponse reply) w)) =
       responses (log w) ++ [reply]
    /\ Content.transferClick_callback (Some reply) =
       ("Unknown action", "error").
Proof.
  exists "openTransferDialog", (RespError "Unknown action").
  split; [reflexivity |]. split; [reflexivity |].
  split; [reflexivity |]. split; [reflexivity |].
  split; [|reflexivity].
  unfold add_log. simpl. rewrite responses_app. reflexivity.
Qed.
